(** * Lexical decision task (web version): trial generation, timing,
      response capture, scoring and summary statistics.

    A shallow embedding of [src/web/experiment.js] and of the aggregation in
    [src/web/dashboard.js], followed by the properties of the specification
    that concern them.

    Conventions of the embedding.
    - JS arrays are lists; an array mutated in place is passed and returned.
    - [Math.random()] is a stream [rnd : nat -> Q] of draws in [0,1) read at
      a position that every call advances.
    - JS numbers that hold integers (durations in ms, counters, 0/1 flags) are
      [Z]; the refresh time stamps that [showForDuration] subtracts and
      compares are IEEE doubles ([float], with the primitive subtraction and
      comparison of binary64); response times and means are exact rationals
      [Q].
    - [null], [undefined] and the empty string used as "no value" are [None]
      or a dedicated constructor. *)

From Stdlib Require Import Floats ZArith QArith Qround Ascii String List Lia
  Lqa.
From stdpp Require Import base list strings sorting gmap.

Local Open Scope Z_scope.

(* ===================================================================== *)
(** ** Data model                                                          *)
(* ===================================================================== *)

(** The two values the [lexicality] property takes: "word", "pseudoword". *)
Inductive Lexicality := LexWord | LexPseudoword.

#[global] Instance Lexicality_eq_dec : EqDecision Lexicality.
Proof. solve_decision. Defined.

(** [{ stimulus, lexicality }], an entry of [CONFIG.practiceItems]. *)
Record StimulusItem := mkItem {
  item_stimulus : string;
  item_lexicality : Lexicality;
}.

(** A trial object as the generators build it.  [duration] is [None] when
    the property holds [undefined] (indexing an empty [CONFIG.durations]);
    [trialNumber] is [None] until [generateTrials] numbers the trials. *)
Record TrialSpec := mkTrial {
  stimulus : string;
  lexicality : Lexicality;
  duration : option Z;
  trialNumber : option nat;
}.

(** The [RT] property of a result: the empty string on a timeout, else the
    string [(rt / 1000).toFixed(6)], a decimal with six fractional digits,
    kept as its value in units of 1e-6 s. *)
Inductive RTField := RTEmpty | RTSeconds (micros : Z).

(** The [response] property of a result: the empty string, [1] or [0]. *)
Inductive ResponseField := RespEmpty | RespNum (v : Z).

#[global] Instance RTField_eq_dec : EqDecision RTField.
Proof. solve_decision. Defined.
#[global] Instance ResponseField_eq_dec : EqDecision ResponseField.
Proof. solve_decision. Defined.

(** The object [runTrial] returns (and, with the same fields, a document of
    the [trials] collection the dashboard reads). *)
Record TrialResult := mkResult {
  r_stimulus : string;
  r_lexicality : Lexicality;
  r_duration : option Z;
  r_response : ResponseField;
  r_RT : RTField;
  r_accuracy : Z;
}.

(** The [CONFIG] object. *)
Record Config := mkConfig {
  words : list string;
  pseudowords : list string;
  practiceItems : list StimulusItem;
  durations : list Z;
  fixationDuration : Z;
  maskDuration : Z;
  responseTimeout : Z;
  feedbackDuration : Z;
  nReps : Z;
  maxSameLexInRow : Z;
  keyWord : string;
  keyNonword : string;
}.

Definition CONFIG : Config := {|
  words := ["river"; "window"; "sugar"; "forest"; "jacket";
            "island"; "kitten"; "cheese"; "hammer"; "candle"]%string;
  pseudowords := ["tible"; "hause"; "gardon"; "flomer"; "desern";
                  "strean"; "perlun"; "morle"; "stome"; "waper"]%string;
  practiceItems := [mkItem "finger" LexWord; mkItem "church" LexWord;
                    mkItem "carrot" LexWord; mkItem "hamen" LexPseudoword;
                    mkItem "pamer" LexPseudoword; mkItem "waten" LexPseudoword];
  durations := [40; 200];
  fixationDuration := 500;
  maskDuration := 150;
  responseTimeout := 2000;
  feedbackDuration := 500;
  nReps := 1;
  maxSameLexInRow := 3;
  keyWord := "f";
  keyNonword := "j";
|}.

(* ===================================================================== *)
(** ** Trial generation                                                    *)
(* ===================================================================== *)

(** A source of [Math.random()] values. *)
Definition Rand := nat -> Q.

(** Every draw lies in [0,1), as [Math.random()] guarantees. *)
Definition unit_draws (rnd : Rand) : Prop :=
  forall k, (0 <= rnd k)%Q /\ (rnd k < 1)%Q.

(** [Math.floor(Math.random() * (i + 1))] for the draw [u]. *)
Definition randomIndex (u : Q) (i : nat) : nat :=
  Z.to_nat (Qfloor (u * inject_Z (Z.of_nat i + 1))).

Section Shuffle.
Context {A : Type}.

(** [[arr[i], arr[j]] = [arr[j], arr[i]]]: both reads, then the write to
    [i], then the write to [j].  Both indices are inside the array at every
    call [shuffle] makes; elsewhere the model leaves the array alone. *)
Definition swap (arr : list A) (i j : nat) : list A :=
  match arr !! i, arr !! j with
  | Some x, Some y => <[j:=x]> (<[i:=y]> arr)
  | _, _ => arr
  end.

(** The loop of [shuffle], for [i] counting down to 1; returns the array
    and the position of the next unread draw. *)
Fixpoint shuffle_loop (rnd : Rand) (pos : nat) (i : nat) (arr : list A)
  : list A * nat :=
  match i with
  | O => (arr, pos)
  | S i' =>
      let j := randomIndex (rnd pos) i in
      shuffle_loop rnd (S pos) i' (swap arr i j)
  end.

(** [shuffle(arr)] (Fisher-Yates). *)
Definition shuffle (rnd : Rand) (pos : nat) (arr : list A) : list A * nat :=
  shuffle_loop rnd pos (length arr - 1)%nat arr.
End Shuffle.

(** The loop of [checkLexConstraint] from index [i >= 1] on: [prev] is the
    lexicality of [trials[i - 1]], [count] the counter. *)
Fixpoint checkLex_loop (maxRun : Z) (prev : Lexicality) (count : Z)
    (rest : list TrialSpec) : bool :=
  match rest with
  | [] => true
  | t :: rest' =>
      if decide (lexicality t = prev) then
        let count' := count + 1 in
        if count' >? maxRun then false
        else checkLex_loop maxRun (lexicality t) count' rest'
      else checkLex_loop maxRun (lexicality t) 1 rest'
  end.

(** [checkLexConstraint(trials, maxRun)]. *)
Definition checkLexConstraint (trials : list TrialSpec) (maxRun : Z) : bool :=
  match trials with
  | [] => true
  | t0 :: rest => checkLex_loop maxRun (lexicality t0) 1 rest
  end.

(** The pushes of one pass over [CONFIG.durations]. *)
Definition trialsForDuration (cfg : Config) (dur : Z) : list TrialSpec :=
  map (fun w => mkTrial w LexWord (Some dur) None) (words cfg)
  ++ map (fun pw => mkTrial pw LexPseudoword (Some dur) None) (pseudowords cfg).

(** The pushes of one repetition. *)
Definition trialsForRep (cfg : Config) : list TrialSpec :=
  flat_map (trialsForDuration cfg) (durations cfg).

(** The three nested [for] loops: [rep] runs over [0 .. nReps - 1], which is
    no iteration at all when [nReps <= 0]. *)
Fixpoint buildTrials_loop (cfg : Config) (reps : nat) : list TrialSpec :=
  match reps with
  | O => []
  | S reps' => trialsForRep cfg ++ buildTrials_loop cfg reps'
  end.

Definition buildTrials (cfg : Config) : list TrialSpec :=
  buildTrials_loop cfg (Z.to_nat (nReps cfg)).

(** The retry loop with [attempts] iterations left: shuffle, then [break]
    when the constraint holds. *)
Fixpoint shuffleRetry (maxRun : Z) (rnd : Rand) (attempts : nat) (pos : nat)
    (trials : list TrialSpec) : list TrialSpec * nat :=
  match attempts with
  | O => (trials, pos)
  | S attempts' =>
      let '(trials', pos') := shuffle rnd pos trials in
      if checkLexConstraint trials' maxRun then (trials', pos')
      else shuffleRetry maxRun rnd attempts' pos' trials'
  end.

(** [trials.forEach((t, i) => { t.trialNumber = i; })] from index [i] on. *)
Fixpoint numberTrials (i : nat) (trials : list TrialSpec) : list TrialSpec :=
  match trials with
  | [] => []
  | t :: rest =>
      mkTrial (stimulus t) (lexicality t) (duration t) (Some i)
      :: numberTrials (S i) rest
  end.

Definition retryCap : nat := 1000.

(** [generateTrials()]: the trial list and the position of the next draw. *)
Definition generateTrials (cfg : Config) (rnd : Rand) (pos : nat)
    : list TrialSpec * nat :=
  let '(trials, pos') :=
    shuffleRetry (maxSameLexInRow cfg) rnd retryCap pos (buildTrials cfg) in
  (numberTrials 0 trials, pos').




(* ===================================================================== *)
(** ** Timing helper                                                       *)
(* ===================================================================== *)

(** The callback [frame] of [showForDuration], run on the time stamps that
    successive [requestAnimationFrame] calls deliver.  [startTime] is [None]
    while the variable holds [null].  The result is the time stamp the
    promise resolves with, or [None] while it is still pending after the
    stamps given.  The test [timestamp - startTime >= durationMs] is the one of
    JS numbers: the binary64 subtraction, rounded to nearest, then the
    binary64 comparison (false on [NaN]). *)
Fixpoint frame (durationMs : float) (startTime : option float)
    (stamps : list float) : option float :=
  match stamps with
  | [] => None
  | timestamp :: later =>
      let startTime' :=
        match startTime with None => timestamp | Some s => s end in
      if (durationMs <=? timestamp - startTime')%float then Some timestamp
      else frame durationMs (Some startTime') later
  end.

(** [showForDuration(html, durationMs)] on the refresh time stamps [stamps]. *)
Definition showForDuration (durationMs : float) (stamps : list float)
    : option float :=
  frame durationMs None stamps.

(* ===================================================================== *)
(** ** Response collector                                                  *)
(* ===================================================================== *)

(** What [waitForResponse] resolves with: [{ key, rt }], each possibly
    [null]. *)
Record Response := mkResponse {
  resp_key : option string;
  resp_rt : option Q;
}.

(** [String.prototype.toLowerCase] on ASCII text. *)
Definition lowerAscii (c : ascii) : ascii :=
  let n := nat_of_ascii c in
  if ((65 <=? n) && (n <=? 90))%nat then ascii_of_nat (n + 32) else c.

Fixpoint toLowerCase (s : string) : string :=
  match s with
  | EmptyString => EmptyString
  | String c s' => String (lowerAscii c) (toLowerCase s')
  end.

(** The state one call of [waitForResponse] owns: the body class, the three
    listeners, the timer, the flag [resolved], [startTime], and the calls of
    [resolve] made so far (newest last). *)
Record Collector := mkCollector {
  awaitingResponse : bool;
  keydownListener : bool;
  tapWordListener : bool;
  tapNonwordListener : bool;
  timerPending : bool;
  resolved : bool;
  startTime : Q;
  resolutions : list Response;
}.

(** The state when the executor of the promise has run (the page has both
    buttons): class added, the three listeners registered, the timer set. *)
Definition waitForResponse (now : Q) : Collector := {|
  awaitingResponse := true;
  keydownListener := true;
  tapWordListener := true;
  tapNonwordListener := true;
  timerPending := true;
  resolved := false;
  startTime := now;
  resolutions := [];
|}.

Definition cleanup (st : Collector) : Collector := {|
  awaitingResponse := false;
  keydownListener := false;
  tapWordListener := false;
  tapNonwordListener := false;
  timerPending := false;
  resolved := resolved st;
  startTime := startTime st;
  resolutions := resolutions st;
|}.

Definition setResolved (st : Collector) : Collector := {|
  awaitingResponse := awaitingResponse st;
  keydownListener := keydownListener st;
  tapWordListener := tapWordListener st;
  tapNonwordListener := tapNonwordListener st;
  timerPending := timerPending st;
  resolved := true;
  startTime := startTime st;
  resolutions := resolutions st;
|}.

Definition resolve (r : Response) (st : Collector) : Collector := {|
  awaitingResponse := awaitingResponse st;
  keydownListener := keydownListener st;
  tapWordListener := tapWordListener st;
  tapNonwordListener := tapNonwordListener st;
  timerPending := timerPending st;
  resolved := resolved st;
  startTime := startTime st;
  resolutions := resolutions st ++ [r];
|}.

(** [respond(key)], with [now] the value of [performance.now()]. *)
Definition respond (key : string) (now : Q) (st : Collector) : Collector :=
  if resolved st then st
  else resolve (mkResponse (Some key) (Some (now - startTime st)%Q))
         (cleanup (setResolved st)).

(** [onKey(e)] for [e.key = key]. *)
Definition onKey (cfg : Config) (key : string) (now : Q) (st : Collector)
    : Collector :=
  let k := toLowerCase key in
  if decide (k = keyWord cfg) then respond (keyWord cfg) now st
  else if decide (k = keyNonword cfg) then respond (keyNonword cfg) now st
  else st.

Definition onTapWord (cfg : Config) (now : Q) (st : Collector) : Collector :=
  respond (keyWord cfg) now st.

Definition onTapNonword (cfg : Config) (now : Q) (st : Collector)
    : Collector :=
  respond (keyNonword cfg) now st.

(** The callback given to [setTimeout]. *)
Definition onTimeout (st : Collector) : Collector :=
  if resolved st then st
  else resolve (mkResponse None None) (cleanup (setResolved st)).

(** What the browser can deliver during the window. *)
Inductive Event :=
| Keydown (key : string) (now : Q)
| PointerupWord (now : Q)
| PointerupNonword (now : Q)
| TimerExpires.

(** The browser runs a handler only while its listener is registered, and
    the timer callback only while the timer is set (it is one-shot). *)
Definition dispatch (cfg : Config) (st : Collector) (ev : Event) : Collector :=
  match ev with
  | Keydown key now =>
      if keydownListener st then onKey cfg key now st else st
  | PointerupWord now =>
      if tapWordListener st then onTapWord cfg now st else st
  | PointerupNonword now =>
      if tapNonwordListener st then onTapNonword cfg now st else st
  | TimerExpires =>
      if timerPending st then
        onTimeout (mkCollector (awaitingResponse st) (keydownListener st)
                     (tapWordListener st) (tapNonwordListener st) false
                     (resolved st) (startTime st) (resolutions st))
      else st
  end.

(** The window entered at [now] and fed the events [evs] in order. *)
Definition runWindow (cfg : Config) (now : Q) (evs : list Event) : Collector :=
  fold_left (dispatch cfg) evs (waitForResponse now).

(* ===================================================================== *)
(** ** Scoring of one trial                                                *)
(* ===================================================================== *)

(** [x.toFixed(6)], as the number of 1e-6 units of the decimal it prints:
    the nearest one, the larger in magnitude on a tie. *)
Definition toFixed6 (x : Q) : Z :=
  if Qle_bool 0 x then Qfloor (x * 1000000 + (1 # 2))%Q
  else - Qfloor (- x * 1000000 + (1 # 2))%Q.

Inductive Feedback := TooSlow | Correct | Incorrect.

(** The text [runTrial] shows in its feedback phase. *)
Definition feedbackOf (cfg : Config) (trialInfo : TrialSpec) (resp : Response)
    : Feedback :=
  match resp_key resp with
  | None => TooSlow
  | Some key =>
      let expected :=
        if decide (lexicality trialInfo = LexWord) then keyWord cfg
        else keyNonword cfg in
      if decide (key = expected) then Correct else Incorrect
  end.

(** The object [runTrial(trialInfo)] returns once its five phases are over,
    [resp] being what [waitForResponse] resolved with.  [null / 1000] is 0. *)
Definition runTrial (cfg : Config) (trialInfo : TrialSpec) (resp : Response)
    : TrialResult :=
  let timedOut := bool_decide (resp_key resp = None) in
  let expected :=
    if decide (lexicality trialInfo = LexWord) then keyWord cfg
    else keyNonword cfg in
  let correct := negb timedOut && bool_decide (resp_key resp = Some expected) in
  {| r_stimulus := stimulus trialInfo;
     r_lexicality := lexicality trialInfo;
     r_duration := duration trialInfo;
     r_response :=
       if timedOut then RespEmpty
       else if bool_decide (resp_key resp = Some (keyWord cfg)) then RespNum 1
            else RespNum 0;
     r_RT :=
       if timedOut then RTEmpty
       else RTSeconds (toFixed6 (default 0 (resp_rt resp) / 1000)%Q);
     r_accuracy := if correct then 1 else 0 |}.

(* ===================================================================== *)
(** ** Form parameters and the start of the experiment                     *)
(* ===================================================================== *)

(** The welcome form.  A numeric field holds what [parseInt] returns for its
    text: [None] is [NaN]. *)
Record Form := mkForm {
  param_reps : option Z;
  param_fix_dur : option Z;
  param_mask_dur : option Z;
  param_timeout : option Z;
  param_fb_dur : option Z;
  param_swap : bool;
  subject_id : string;
  param_practice : bool;
  param_dev_mode : bool;
}.

(** [parseInt(text) || dflt]: [NaN] and [0] are falsy. *)
Definition parseIntOr (v : option Z) (dflt : Z) : Z :=
  match v with
  | Some n => if n =? 0 then dflt else n
  | None => dflt
  end.

(** [applyFormParameters()]: the new value of [CONFIG]. *)
Definition applyFormParameters (form : Form) (cfg : Config) : Config := {|
  words := words cfg;
  pseudowords := pseudowords cfg;
  practiceItems := practiceItems cfg;
  durations := durations cfg;
  fixationDuration := parseIntOr (param_fix_dur form) 500;
  maskDuration := parseIntOr (param_mask_dur form) 150;
  responseTimeout := parseIntOr (param_timeout form) 2000;
  feedbackDuration := parseIntOr (param_fb_dur form) 500;
  nReps := parseIntOr (param_reps form) 1;
  maxSameLexInRow := maxSameLexInRow cfg;
  keyWord := if param_swap form then "j"%string else keyWord cfg;
  keyNonword := if param_swap form then "f"%string else keyNonword cfg;
|}.

(** White space that [String.prototype.trim] strips, within ASCII. *)
Definition isSpace (c : ascii) : bool :=
  let n := nat_of_ascii c in
  ((n =? 32) || ((9 <=? n) && (n <=? 13)))%nat.

Fixpoint trimStart (s : string) : string :=
  match s with
  | EmptyString => EmptyString
  | String c s' => if isSpace c then trimStart s' else s
  end.

(** Strips trailing white space. *)
Fixpoint trimEnd (s : string) : string :=
  match s with
  | EmptyString => EmptyString
  | String c s' =>
      match trimEnd s' with
      | EmptyString => if isSpace c then EmptyString else String c EmptyString
      | t => String c t
      end
  end.

Definition trim (s : string) : string := trimEnd (trimStart s).

(** A document of the [sessions] collection. *)
Record SessionDoc := mkSession {
  s_username : string;
  s_completed : bool;
  s_totalTrials : Z;
  s_completedTrials : Z;
}.

(** Everything the page and the store hold that [runExperiment] can change:
    the module variables [CONFIG] and [sessionDocId], the two collections,
    the alerts shown, and the result list of a running session. *)
Record World := mkWorld {
  w_config : Config;
  w_sessionDocId : option nat;
  w_sessions : list SessionDoc;
  w_trials : list TrialResult;
  w_alerts : list string;
  w_results : option (list TrialResult);
}.

Inductive StartOutcome := Aborted | Proceeds (subjId : string).

Definition setConfig (cfg : Config) (w : World) : World :=
  mkWorld cfg (w_sessionDocId w) (w_sessions w) (w_trials w) (w_alerts w)
    (w_results w).

Definition alert (msg : string) (w : World) : World :=
  mkWorld (w_config w) (w_sessionDocId w) (w_sessions w) (w_trials w)
    (w_alerts w ++ [msg]) (w_results w).

(** [runExperiment()] up to and including the guard on the identifier:
    the form is applied to [CONFIG] first, then the identifier is read and
    tested; on an empty one the function alerts and returns. *)
Definition runExperiment_start (form : Form) (w : World)
    : World * StartOutcome :=
  let w1 := setConfig (applyFormParameters form (w_config w)) w in
  let subjId := trim (subject_id form) in
  if decide (subjId = EmptyString) then
    (alert "Please enter a username." w1, Aborted)
  else (w1, Proceeds subjId).

(* ===================================================================== *)
(** ** Summary statistics of the end screen                                *)
(* ===================================================================== *)

(** A JS number that a mean can be: a value or [NaN]. *)
Inductive Number := Num (q : Q) | NaN.

Definition numAdd (a b : Number) : Number :=
  match a, b with
  | Num x, Num y => Num (x + y)
  | _, _ => NaN
  end.

(** [total / len] for an array length [len]; both call sites divide by a
    length they have tested to be positive. *)
Definition numDivLength (total : Number) (len : nat) : Number :=
  match total with
  | Num x => Num (x / inject_Z (Z.of_nat len))
  | NaN => NaN
  end.

(** [parseFloat(r.RT)]: the empty string parses to [NaN]. *)
Definition parseFloat (v : RTField) : Number :=
  match v with
  | RTEmpty => NaN
  | RTSeconds micros => Num (micros # 1000000)
  end.

(** [subset.reduce((s, r) => s + r.accuracy, 0)]. *)
Definition sumAccuracy (subset : list TrialResult) : Z :=
  fold_left (fun s r => s + r_accuracy r) subset 0.

(** [correct.reduce((s, r) => s + parseFloat(r.RT), 0)]. *)
Definition sumRT (correct : list TrialResult) : Number :=
  fold_left (fun s r => numAdd s (parseFloat (r_RT r))) correct (Num 0).

(** [{ acc, rt, n }]; [None] is [null]. *)
Record Stats := mkStats {
  acc : option Number;
  rt : option Number;
  n : nat;
}.

(** The helper [stats(subset)] of [computeSummary]. *)
Definition stats (subset : list TrialResult) : Stats :=
  let n := length subset in
  if (n =? 0)%nat then mkStats (Some (Num 0)) None 0
  else
    let acc := numDivLength (Num (inject_Z (sumAccuracy subset))) n in
    let correct :=
      List.filter (fun r => bool_decide (r_accuracy r = 1)
                            && negb (bool_decide (r_RT r = RTEmpty))) subset in
    let rt :=
      if (0 <? length correct)%nat
      then Some (numDivLength (sumRT correct) (length correct))
      else None in
    mkStats (Some acc) rt n.

(** [[...new Set(xs)]]: the first occurrence of every value, in order. *)
Fixpoint uniqueFirst (xs : list (option Z)) : list (option Z) :=
  match xs with
  | [] => []
  | x :: rest =>
      x :: List.filter (fun y => negb (bool_decide (y = x))) (uniqueFirst rest)
  end.

(** The order [sort((a, b) => a - b)] puts distinct values in: numbers
    ascending, [undefined] last. *)
Definition durationLeb (a b : option Z) : bool :=
  match a, b with
  | Some x, Some y => x <=? y
  | Some _, None => true
  | None, Some _ => false
  | None, None => true
  end.

Fixpoint insertDuration (d : option Z) (sorted : list (option Z))
    : list (option Z) :=
  match sorted with
  | [] => [d]
  | x :: rest =>
      if durationLeb d x then d :: sorted else x :: insertDuration d rest
  end.

Definition sortDurations (xs : list (option Z)) : list (option Z) :=
  fold_right insertDuration [] xs.

Definition allLexicalities : list Lexicality := [LexWord; LexPseudoword].

Definition matchesCell (lex : Lexicality) (dur : option Z) (r : TrialResult)
    : bool :=
  bool_decide (r_lexicality r = lex) && bool_decide (r_duration r = dur).

(** [{ durations, cells, byLex, byDur }]; an object used as a map is the list
    of its entries in insertion order. *)
Record Summary := mkSummary {
  sum_durations : list (option Z);
  cells : list (Lexicality * list (option Z * Stats));
  byLex : list (Lexicality * Stats);
  byDur : list (option Z * Stats);
}.

(** [computeSummary(results)]. *)
Definition computeSummary (results : list TrialResult) : Summary :=
  let durations := sortDurations (uniqueFirst (map r_duration results)) in
  {| sum_durations := durations;
     cells :=
       map (fun lex =>
              (lex, map (fun dur =>
                           (dur, stats (List.filter (matchesCell lex dur) results)))
                        durations))
           allLexicalities;
     byLex :=
       map (fun lex =>
              (lex, stats (List.filter
                             (fun r => bool_decide (r_lexicality r = lex))
                             results)))
           allLexicalities;
     byDur :=
       map (fun dur =>
              (dur, stats (List.filter
                             (fun r => bool_decide (r_duration r = dur))
                             results)))
           durations |}.

(** [obj[key]] on a list of entries. *)
Fixpoint entry {K V : Type} `{EqDecision K} (key : K) (entries : list (K * V))
    : option V :=
  match entries with
  | [] => None
  | (k, v) :: rest => if decide (k = key) then Some v else entry key rest
  end.

(** [cells[lex][dur]]. *)
Definition cellOf (s : Summary) (lex : Lexicality) (dur : option Z)
    : option Stats :=
  match entry lex (cells s) with
  | Some row => entry dur row
  | None => None
  end.

(* ===================================================================== *)
(** ** The live dashboard ([dashboard.js])                                 *)
(* ===================================================================== *)

Module Dashboard.

(** [{ acc, meanRT, n }]. *)
Record GrandStat := mkGrandStat {
  acc : option Number;
  meanRT : option Number;
  n : nat;
}.

(** The predicate of the trial-level exclusion: an [RT] that is empty or
    does not parse, is below 0.2 s or is above 2.0 s drops the trial. *)
Definition isClean (t : TrialResult) : bool :=
  if bool_decide (r_RT t = RTEmpty) then false
  else
    match parseFloat (r_RT t) with
    | NaN => false
    | Num rt =>
        if negb (Qle_bool (2 # 10) rt) then false
        else if negb (Qle_bool rt 2) then false
        else true
    end.

Definition conditions : list (Lexicality * Z) :=
  [(LexWord, 40); (LexWord, 200); (LexPseudoword, 40); (LexPseudoword, 200)].

(** One iteration of the loop over [conditions]. *)
Definition grandStat (clean : list TrialResult) (lex : Lexicality) (dur : Z)
    : GrandStat :=
  let subset := List.filter (matchesCell lex (Some dur)) clean in
  let n := length subset in
  let acc :=
    if (0 <? n)%nat
    then Some (numDivLength (Num (inject_Z (sumAccuracy subset))) n)
    else None in
  let correct :=
    List.filter (fun t => bool_decide (r_accuracy t = 1)) subset in
  let meanRT :=
    if (0 <? length correct)%nat
    then Some (numDivLength (sumRT correct) (length correct))
    else None in
  mkGrandStat acc meanRT n.

(** [recomputeAll()] on [allTrials]: the object [grandStats] it hands to
    [updateCharts], keyed by the condition (the key string
    [`${lex}-${dur}`] names), or [None] when it returns at once because
    there are no trials. *)
Definition recomputeAll (allTrials : list TrialResult)
    : option (list (Lexicality * Z * GrandStat)) :=
  if (length allTrials =? 0)%nat then None
  else
    let clean := List.filter isClean allTrials in
    Some (map (fun c => (c, grandStat clean (fst c) (snd c))) conditions).

(** The property names every object inherits from [Object.prototype]; read
    on a fresh [{}] each gives a function or object, never [undefined]. *)
Definition objectPrototypeNames : list string :=
  ["constructor"; "__defineGetter__"; "__defineSetter__"; "hasOwnProperty";
   "__lookupGetter__"; "__lookupSetter__"; "isPrototypeOf";
   "propertyIsEnumerable"; "toString"; "valueOf"; "__proto__";
   "toLocaleString"]%string.

(** One step of the [reduce] in [groupBy]:
    [(groups[k] = groups[k] || []).push(item)] for [k = item[key]].  [None]
    stands for the [TypeError] raised when [groups[k]] is an inherited
    value, which is truthy and has no [push]. *)
Definition groupBy_step {T : Type} (keyOf : T -> string)
    (groups : option (gmap string (list T))) (item : T)
    : option (gmap string (list T)) :=
  match groups with
  | None => None
  | Some g =>
      let k := keyOf item in
      match g !! k with
      | Some group => Some (<[k := group ++ [item]]> g)
      | None =>
          if bool_decide (k ∈ objectPrototypeNames) then None
          else Some (<[k := [item]]> g)
      end
  end.

(** [groupBy(arr, key)], with [keyOf item] the text of [item[key]]. *)
Definition groupBy {T : Type} (keyOf : T -> string) (arr : list T)
    : option (gmap string (list T)) :=
  fold_left (groupBy_step keyOf) arr (Some ∅).

(** The fields of a ranked participant the comparator looks at. *)
Record Ranked := mkRanked {
  rk_completed : bool;
  rk_acc : option Q;
}.

(** The comparator of the ranking: completed first, then accuracy
    descending, no accuracy last. *)
Definition rankCompare (a b : Ranked) : Q :=
  if rk_completed a && negb (rk_completed b) then (-1)%Q
  else if negb (rk_completed a) && rk_completed b then 1%Q
  else
    match rk_acc a, rk_acc b with
    | None, None => 0%Q
    | None, Some _ => 1%Q
    | Some _, None => (-1)%Q
    | Some x, Some y => (y - x)%Q
    end.

End Dashboard.

(* ===================================================================== *)
(** ** Further functions of [experiment.js]                                *)
(* ===================================================================== *)

(** [s.repeat(count)]. *)
Fixpoint repeatString (s : string) (count : nat) : string :=
  match count with
  | O => EmptyString
  | S count' => (s ++ repeatString s count')%string
  end.

(** [generateMask(stimulus)]. *)
Definition generateMask (stimulus : string) : string :=
  repeatString "#" (String.length stimulus).

(** [String.prototype.toUpperCase] on ASCII text. *)
Definition upperAscii (c : ascii) : ascii :=
  let n := nat_of_ascii c in
  if ((97 <=? n) && (n <=? 122))%nat then ascii_of_nat (n - 32) else c.

Fixpoint toUpperCase (s : string) : string :=
  match s with
  | EmptyString => EmptyString
  | String c s' => String (upperAscii c) (toUpperCase s')
  end.

(** What a phase of a trial puts into the trial area. *)
Inductive Content :=
| FixationCross
| StimulusText (text : string)
| MaskText (text : string)
| ResponsePrompt (wordKey nonwordKey : string)
| FeedbackText (fb : Feedback).

(** The five phases [runTrial] goes through, each with what it shows and the
    duration (or timeout) it passes on; [resp] is what the response window
    resolves with. *)
Definition trialPhases (cfg : Config) (trialInfo : TrialSpec) (resp : Response)
    : list (Content * option Z) :=
  [ (FixationCross, Some (fixationDuration cfg));
    (StimulusText (toUpperCase (stimulus trialInfo)), duration trialInfo);
    (MaskText (generateMask (stimulus trialInfo)), Some (maskDuration cfg));
    (ResponsePrompt (toUpperCase (keyWord cfg)) (toUpperCase (keyNonword cfg)),
     Some (responseTimeout cfg));
    (FeedbackText (feedbackOf cfg trialInfo resp), Some (feedbackDuration cfg)) ].

(** The state one call of [waitForAnyResponseKey] owns: the keydown
    listener, one pointerup listener per [.btn-continue] button, the flag
    [resolved], and how often [resolve] has been called. *)
Record Continue := mkContinue {
  c_keydownListener : bool;
  c_tapListeners : list bool;
  c_resolved : bool;
  c_resolveCalls : nat;
}.

(** The state when the executor has run on a page with [buttons] continue
    buttons. *)
Definition waitForAnyResponseKey (buttons : nat) : Continue :=
  mkContinue true (replicate buttons true) false 0.

(** [done()]. *)
Definition continueDone (st : Continue) : Continue :=
  if c_resolved st then st
  else mkContinue false (map (fun _ => false) (c_tapListeners st)) true
         (S (c_resolveCalls st)).

(** What the browser can deliver while an instruction screen waits. *)
Inductive ContinueEvent :=
| ContinueKeydown (key : string)
| ContinuePointerup (button : nat).

(** Handlers run only while registered: [onKey] calls [done] for either
    response key, [onTap] for any tap on a continue button. *)
Definition continueDispatch (cfg : Config) (st : Continue) (ev : ContinueEvent)
    : Continue :=
  match ev with
  | ContinueKeydown key =>
      if c_keydownListener st then
        let k := toLowerCase key in
        if decide (k = keyWord cfg ∨ k = keyNonword cfg) then continueDone st
        else st
      else st
  | ContinuePointerup button =>
      match c_tapListeners st !! button with
      | Some true => continueDone st
      | _ => st
      end
  end.

(** An instruction screen with [buttons] continue buttons, fed [evs]. *)
Definition runContinue (cfg : Config) (buttons : nat)
    (evs : list ContinueEvent) : Continue :=
  fold_left (continueDispatch cfg) evs (waitForAnyResponseKey buttons).

(** The line feed. *)
Definition newline : string := String (ascii_of_nat 10) EmptyString.

(** [columns.map((c) => row[c] ?? "").join(",")]; a row is the function from
    a property name to the text of its value, [None] for [null] or
    [undefined]. *)
Definition csvLine (columns : list string) (row : string -> option string)
    : string :=
  String.concat "," (map (fun c => default EmptyString (row c)) columns).

(** [toCSV(rows, columns)]. *)
Definition toCSV (rows : list (string -> option string))
    (columns : list string) : string :=
  (String.concat "," columns ++ newline
   ++ String.concat newline (map (csvLine columns) rows) ++ newline)%string.

(** The characters the class [[a-zA-Z0-9_-]] holds. *)
Definition isSafeChar (c : ascii) : bool :=
  let n := nat_of_ascii c in
  (((97 <=? n) && (n <=? 122)) || ((65 <=? n) && (n <=? 90))
   || ((48 <=? n) && (n <=? 57)) || (n =? 95) || (n =? 45))%nat.

(** [subjId.replace(/[^a-zA-Z0-9_-]/g, "_")]. *)
Fixpoint replaceUnsafe (s : string) : string :=
  match s with
  | EmptyString => EmptyString
  | String c s' => String (if isSafeChar c then c else "_"%char) (replaceUnsafe s')
  end.

(** The name the download button gives the file. *)
Definition csvFilename (subjId : string) : string :=
  (replaceUnsafe subjId ++ "_trial_responses.csv")%string.

(** The [totalTrials] that [runExperiment] stores in the session document. *)
Definition totalTrials (cfg : Config) (devMode : bool) : Z :=
  if devMode then 10
  else nReps cfg
       * (Z.of_nat (length (words cfg)) + Z.of_nat (length (pseudowords cfg)))
       * Z.of_nat (length (durations cfg)).

(** The trials of the main block: [generateTrials()], cut to
    [trials.slice(0, 10)] in dev mode. *)
Definition mainTrials (cfg : Config) (devMode : bool) (rnd : Rand) (pos : nat)
    : list TrialSpec * nat :=
  let '(trials, pos') := generateTrials cfg rnd pos in
  (if devMode then take 10 trials else trials, pos').

(** [Math.floor(trials.length / 2)]. *)
Definition midpoint (trials : list TrialSpec) : nat :=
  (length trials / 2)%nat.

(** What the main loop does, in order. *)
Inductive LoopStep := BreakGate | RunTrial (i : nat).

(** The body of the main loop at index [i]: the break gate when
    [CONFIG.nReps > 1 && i === midpoint], then the trial. *)
Definition loopBody (cfg : Config) (trials : list TrialSpec) (i : nat)
    : list LoopStep :=
  (if (1 <? nReps cfg) && (i =? midpoint trials)%nat then [BreakGate] else [])
  ++ [RunTrial i].

(** The main loop over [i = 0 .. trials.length - 1]. *)
Definition mainSchedule (cfg : Config) (trials : list TrialSpec)
    : list LoopStep :=
  flat_map (loopBody cfg trials) (seq 0 (length trials)).

(** A result as the main loop pushes it: what [runTrial] returned, with
    [trialNumber] and [subject] set. *)
Record ResultRow := mkRow {
  row_result : TrialResult;
  row_trialNumber : nat;
  row_subject : string;
}.

(** The array [results] after the main loop has run the trials from index
    [i] on, trial by trial with the responses [resps]. *)
Fixpoint mainLoop (cfg : Config) (subjId : string) (i : nat)
    (trials : list TrialSpec) (resps : list Response) : list ResultRow :=
  match trials, resps with
  | t :: trials', resp :: resps' =>
      mkRow (runTrial cfg t resp) i subjId
      :: mainLoop cfg subjId (S i) trials' resps'
  | _, _ => []
  end.

(** [durations[i]]: [undefined] past the end. *)
Definition durationAt (ds : list (option Z)) (i : nat) : option Z :=
  default None (ds !! i).

(** What [populateSummary] reads to fill the end screen: the counts of the
    overall line, the two header labels, and the statistics behind every
    cell it formats. *)
Record SummaryView := mkView {
  v_trials : nat;
  v_correct : nat;
  v_labels : option Z * option Z;
  v_cells : list Stats;
  v_byLex : list Stats;
  v_byDur : list Stats;
}.

(** [populateSummary(results)], up to the formatting of the numbers: [None]
    when reading [.acc] or [.rt] of a cell that does not exist throws. *)
Definition populateSummary (results : list TrialResult) : option SummaryView :=
  let s := computeSummary results in
  let nCorrect :=
    length (List.filter (fun r => bool_decide (r_accuracy r = 1)) results) in
  let d0 := durationAt (sum_durations s) 0 in
  let d1 := durationAt (sum_durations s) 1 in
  w0 ← cellOf s LexWord d0;
  w1 ← cellOf s LexWord d1;
  p0 ← cellOf s LexPseudoword d0;
  p1 ← cellOf s LexPseudoword d1;
  lw ← entry LexWord (byLex s);
  lp ← entry LexPseudoword (byLex s);
  b0 ← entry d0 (byDur s);
  b1 ← entry d1 (byDur s);
  Some (mkView (length results) nCorrect (d0, d1) [w0; w1; p0; p1] [lw; lp]
          [b0; b1]).

(* ===================================================================== *)
(** ** Notions the properties are stated with                              *)
(* ===================================================================== *)

(** How many trials show stimulus [s] for duration [d]. *)
Definition countPair (s : string) (d : Z) (trials : list TrialSpec) : nat :=
  length (filter (λ t, stimulus t = s ∧ duration t = Some d) trials).

(** How often [x] is listed in [xs]. *)
Definition occurrences {A} `{EqDecision A} (x : A) (xs : list A) : nat :=
  length (filter (λ y, y = x) xs).

(** The [len >= 1] entries of [trials] from index [i] on exist and share one
    lexicality. *)
Definition isRun (trials : list TrialSpec) (i len : nat) : Prop :=
  (0 < len)%nat ∧
  ∃ lex, ∀ j, (j < len)%nat →
              lexicality <$> trials !! (i + j)%nat = Some lex.

(** No run of more than [K] consecutive trials of one lexicality. *)
Definition noLongRun (K : Z) (trials : list TrialSpec) : Prop :=
  ∀ i len, isRun trials i len → Z.of_nat len <= K.

(** The array after [k] successive calls of [shuffle], the first reading
    the draws from [pos] on. *)
Fixpoint afterShuffles (rnd : Rand) (k : nat) (pos : nat)
    (trials : list TrialSpec) : list TrialSpec * nat :=
  match k with
  | O => (trials, pos)
  | S k' =>
      let '(trials', pos') := shuffle rnd pos trials in
      afterShuffles rnd k' pos' trials'
  end.

(** Attempt number [k] (from 1) of a retry loop started at [pos] on
    [trials] passes the validation against [K]. *)
Definition attemptPasses (K : Z) (rnd : Rand) (pos : nat)
    (trials : list TrialSpec) (k : nat) : Prop :=
  checkLexConstraint (afterShuffles rnd k pos trials).1 K = true.

(** [stamps !! i] is the first refresh whose elapsed time since the first
    frame, as the binary64 subtraction computes it, reaches [d]. *)
Definition firstRefreshReaching (d : float) (stamps : list float) (i : nat)
    (t : float) : Prop :=
  ∃ t0, stamps !! 0%nat = Some t0 ∧ stamps !! i = Some t ∧
        (d <=? t - t0)%float = true ∧
        ∀ j tj, (j < i)%nat → stamps !! j = Some tj →
                (d <=? tj - t0)%float = false.

(** The double [t] is a number: neither an infinity nor [NaN]. *)
Definition isFinite (t : float) : bool :=
  match Prim2SF t with
  | S754_zero _ | S754_finite _ _ _ => true
  | _ => false
  end.

(** The rational number a finite double stands for. *)
Definition exactValue (t : float) : option Q :=
  match Prim2SF t with
  | S754_zero _ => Some 0%Q
  | S754_finite s m e =>
      Some ((if s then -1 else 1) * inject_Z (Zpos m) * 2 ^ e)%Q
  | _ => None
  end.

(** The stamp [t] lies [d] or more after the stamp [t0], the three doubles
    taken as the rational numbers they stand for and subtracted without
    rounding. *)
Definition exactlyReaches (d t0 t : float) : bool :=
  match exactValue d, exactValue t0, exactValue t with
  | Some qd, Some q0, Some q => Qle_bool qd (q - q0)
  | _, _, _ => false
  end.

(** Three refreshes, at the doubles nearest to 0.1 ms, 200.1 ms and
    216.8 ms. *)
Definition earlyStamps : list float :=
  [0x1.999999999999ap-4; 0x1.9033333333333p+7; 0x1.b19999999999ap+7]%float.

(** Five refreshes of a 60 Hz display, at the doubles nearest to 1000,
    1016.7, 1033.4, 1050.1 and 1066.8 ms. *)
Definition sixtyHertz : list float :=
  [0x1.f4p+9; 0x1.fc5999999999ap+9; 0x1.025999999999ap+10;
   0x1.0686666666666p+10; 0x1.0ab3333333333p+10]%float.

(** The draws that are all one half. *)
Definition halfDraws : Rand := fun _ => (1 # 2)%Q.

(** Draws that walk through the sixteenths. *)
Definition sixteenths : Rand :=
  fun k => ((Z.of_nat k * 5 + 3) mod 16 # 16)%Q.

(** The two canonical decisions. *)
Inductive Decision := DecideWord | DecideNonword.

#[global] Instance Decision_eq_dec : EqDecision Decision.
Proof. solve_decision. Defined.

(** The decision a lexicality calls for. *)
Definition impliedDecision (lex : Lexicality) : Decision :=
  match lex with LexWord => DecideWord | LexPseudoword => DecideNonword end.

(** The input identifier bound to a decision. *)
Definition keyFor (cfg : Config) (d : Decision) : string :=
  match d with DecideWord => keyWord cfg | DecideNonword => keyNonword cfg end.

(** The decision bound to an input identifier, if any. *)
Definition decisionOfKey (cfg : Config) (key : string) : option Decision :=
  if decide (key = keyWord cfg) then Some DecideWord
  else if decide (key = keyNonword cfg) then Some DecideNonword
  else None.

(** The decision a collected response stands for; [None] is "none". *)
Definition decisionOf (cfg : Config) (resp : Response) : option Decision :=
  match resp_key resp with
  | Some key => decisionOfKey cfg key
  | None => None
  end.

(** The exported code of a decision: 1 for "word", 0 for "nonword". *)
Definition responseCode (d : Decision) : ResponseField :=
  match d with DecideWord => RespNum 1 | DecideNonword => RespNum 0 end.

(** What an event makes the window resolve with when nothing has resolved
    it before: an input that matches a bound identifier is accepted, the
    timer gives the timeout response, any other key gives nothing. *)
Definition outcomeOf (cfg : Config) (start : Q) (ev : Event) : option Response :=
  match ev with
  | Keydown key now =>
      match decisionOfKey cfg (toLowerCase key) with
      | Some d => Some (mkResponse (Some (keyFor cfg d)) (Some (now - start)%Q))
      | None => None
      end
  | PointerupWord now =>
      Some (mkResponse (Some (keyWord cfg)) (Some (now - start)%Q))
  | PointerupNonword now =>
      Some (mkResponse (Some (keyNonword cfg)) (Some (now - start)%Q))
  | TimerExpires => Some (mkResponse None None)
  end.

(** The outcome of the first event of [evs] that has one. *)
Fixpoint firstOutcome (cfg : Config) (start : Q) (evs : list Event)
    : option Response :=
  match evs with
  | [] => None
  | ev :: later =>
      match outcomeOf cfg start ev with
      | Some r => Some r
      | None => firstOutcome cfg start later
      end
  end.

(** The state the window is left in by the resolution [r]. *)
Definition resolvedWith (start : Q) (r : Response) : Collector :=
  mkCollector false false false false false true start [r].

(** Nothing of the window is left registered. *)
Definition tornDown (st : Collector) : Prop :=
  awaitingResponse st = false ∧ keydownListener st = false ∧
  tapWordListener st = false ∧ tapNonwordListener st = false ∧
  timerPending st = false.

(** The values [CONFIG] can hold: the literal of the source, changed only by
    [applyFormParameters]. *)
Inductive reachableConfig : Config → Prop :=
| reach_initial : reachableConfig CONFIG
| reach_apply form cfg :
    reachableConfig cfg → reachableConfig (applyFormParameters form cfg).

(** The form [form] with the key-swap box set to [b]. *)
Definition withSwap (b : bool) (form : Form) : Form :=
  mkForm (param_reps form) (param_fix_dur form) (param_mask_dur form)
    (param_timeout form) (param_fb_dur form) b (subject_id form)
    (param_practice form) (param_dev_mode form).

(** A form left as the page loads it, with nothing typed. *)
Definition blankForm : Form :=
  mkForm None None None None None false EmptyString false false.

(** The page as loaded: the literal [CONFIG], no session, empty store. *)
Definition initialWorld : World := mkWorld CONFIG None [] [] [] None.

(** A start attempt with two repetitions asked for, the key swap ticked and
    only blanks typed as the username. *)
Definition namelessForm : Form :=
  mkForm (Some 2) None None None None true "  " false false.

(** A start attempt with [-3] typed as the number of repetitions. *)
Definition negativeRepsForm : Form :=
  mkForm (Some (-3)) None None None None false "p01" false false.

(** [CONFIG] once [applyFormParameters] has read [negativeRepsForm]. *)
Definition negativeRepsConfig : Config :=
  applyFormParameters negativeRepsForm CONFIG.

(** A session of one trial: "river" at 40 ms, answered correctly. *)
Definition oneWordResult : list TrialResult :=
  [mkResult "river" LexWord (Some 40) (RespNum 1) (RTSeconds 350000) 1].

(** A session of one trial: "river" at 40 ms, timed out. *)
Definition oneTimeoutResult : list TrialResult :=
  [mkResult "river" LexWord (Some 40) RespEmpty RTEmpty 0].

(** Two clean trials of one cell, one right and one wrong. *)
Definition twoCleanResults : list TrialResult :=
  [mkResult "river" LexWord (Some 40) (RespNum 1) (RTSeconds 350000) 1;
   mkResult "sugar" LexWord (Some 40) (RespNum 0) (RTSeconds 800000) 0].



(** The trial the practice generator makes of catalog entry [i]. *)
Definition practiceTrialAt (cfg : Config) (i : nat) (item : StimulusItem)
    (d : option Z) : TrialSpec :=
  mkTrial (item_stimulus item) (item_lexicality item) d None.

(** All results have a reaction time inside the dashboard's window. *)
Definition allClean (results : list TrialResult) : Prop :=
  ∀ r, r ∈ results → Dashboard.isClean r = true.

(** [grandStats[`${lex}-${dur}`]]. *)
Definition grandCell (g : list (Lexicality * Z * Dashboard.GrandStat))
    (lex : Lexicality) (dur : Z) : option Dashboard.GrandStat :=
  entry (lex, dur) g.

(** How often the character [c] occurs in [s]. *)
Fixpoint countChar (c : ascii) (s : string) : nat :=
  match s with
  | EmptyString => O
  | String a s' => ((if decide (a = c) then 1 else 0) + countChar c s')%nat
  end.

(** The pieces of [s] between the occurrences of [c], as a reader of the
    file splits it. *)
Fixpoint splitOn (c : ascii) (s : string) : list string :=
  match s with
  | EmptyString => [EmptyString]
  | String a s' =>
      if decide (a = c) then EmptyString :: splitOn c s'
      else match splitOn c s' with
           | piece :: pieces => String a piece :: pieces
           | [] => [String a EmptyString]
           end
  end.

Definition commaChar : ascii := ","%char.
Definition lineFeed : ascii := ascii_of_nat 10.

(** The texts a row shows in the given columns. *)
Definition cellsOf (columns : list string) (row : string -> option string)
    : list string :=
  map (fun c => default EmptyString (row c)) columns.

(** A text with neither a comma nor a line feed in it. *)
Definition plainText (s : string) : Prop :=
  countChar commaChar s = 0%nat ∧ countChar lineFeed s = 0%nat.

(** Three columns of the export and a row that lacks the third. *)
Definition sampleColumns : list string := ["subject"; "RT"; "accuracy"]%string.

Definition sampleRow : string -> option string :=
  fun c => if decide (c = "subject"%string) then Some "anna"%string
           else if decide (c = "RT"%string) then Some "0.350000"%string
           else None.

(** Two results, one at each of the shipped durations. *)
Definition bothDurations : list TrialResult :=
  [mkResult "river" LexWord (Some 40) (RespNum 1) (RTSeconds 350000) 1;
   mkResult "tible" LexPseudoword (Some 200) (RespNum 1) (RTSeconds 900000) 0].

(** The state an instruction screen is left in once it has resolved. *)
Definition continued (buttons : nat) : Continue :=
  mkContinue false (replicate buttons false) true 1.

(** Every character of [s] is in the safe class. *)
Fixpoint allSafe (s : string) : bool :=
  match s with
  | EmptyString => true
  | String c s' => isSafeChar c && allSafe s'
  end.

(** An event that ends an instruction screen with [buttons] continue
    buttons: one of the two response keys in either case, or a tap on one
    of the buttons. *)
Definition endsWait (cfg : Config) (buttons : nat) (ev : ContinueEvent) : bool :=
  match ev with
  | ContinueKeydown key =>
      bool_decide (toLowerCase key = keyWord cfg
                   ∨ toLowerCase key = keyNonword cfg)
  | ContinuePointerup button => (button <? buttons)%nat
  end.

(** A catalog of four words and no pseudoword, shown at one duration: every
    order of its four trials is a run of four. *)
Definition wordsOnly : Config :=
  mkConfig ["river"; "window"; "sugar"; "forest"]%string [] [] [40]
    500 150 2000 500 1 3 "f" "j".

(** The results carry 0 or 1 as accuracy, as [runTrial] writes it. *)
Definition binaryAccuracy (results : list TrialResult) : Prop :=
  ∀ r, r ∈ results → r_accuracy r = 0 ∨ r_accuracy r = 1.

(** Every result has a duration (none is [undefined]). *)
Definition durationsDefined (results : list TrialResult) : Prop :=
  ∀ r, r ∈ results → r_duration r ≠ None.

(** A name with which a user of [groupBy] is safe. *)
Definition plainKey (k : string) : Prop := k ∉ Dashboard.objectPrototypeNames.

(* ===================================================================== *)
(** ** The shuffle                                                         *)
(* ===================================================================== *)

Section ShuffleFacts.
Context {A : Type}.
Implicit Types arr : list A.

(** A draw in [0,1) gives an index in [0 .. i]. *)
Lemma randomIndex_le (u : Q) (i : nat) :
  (0 <= u)%Q → (u < 1)%Q → (randomIndex u i ≤ i)%nat.
Proof.
  intros H0 H1. unfold randomIndex.
  set (m := Z.of_nat i + 1).
  assert (Hlt : (u * inject_Z m < inject_Z m)%Q).
  { rewrite <- (Qmult_1_l (inject_Z m)) at 2.
    apply Qmult_lt_compat_r; [|done].
    change 0%Q with (inject_Z 0). rewrite <- Zlt_Qlt. lia. }
  assert (Hfl : Qfloor (u * inject_Z m) < m).
  { rewrite Zlt_Qlt. eapply Qle_lt_trans; [apply Qfloor_le | exact Hlt]. }
  lia.
Qed.

Lemma swap_Permutation arr i j : swap arr i j ≡ₚ arr.
Proof.
  unfold swap. destruct (arr !! i) as [x|] eqn:Hi; [|done].
  destruct (arr !! j) as [y|] eqn:Hj; [|done].
  by apply Permutation_insert_swap.
Qed.

Lemma swap_length arr i j : length (swap arr i j) = length arr.
Proof. by rewrite swap_Permutation. Qed.

(** Inside the array the model's [swap] is the JS exchange: afterwards
    position [i] holds the old [arr[j]] and position [j] the old [arr[i]]. *)
Lemma swap_lookup arr i j x y :
  arr !! i = Some x → arr !! j = Some y →
  swap arr i j !! i = Some y ∧ swap arr i j !! j = Some x.
Proof.
  intros Hi Hj. unfold swap. rewrite Hi, Hj.
  pose proof (lookup_lt_Some _ _ _ Hi). pose proof (lookup_lt_Some _ _ _ Hj).
  split.
  - destruct (decide (i = j)) as [->|Hne].
    + rewrite list_lookup_insert_eq by (by rewrite length_insert). congruence.
    + rewrite list_lookup_insert_ne by done. by apply list_lookup_insert_eq.
  - apply list_lookup_insert_eq. by rewrite length_insert.
Qed.

Lemma shuffle_loop_Permutation rnd i : ∀ pos arr,
  (shuffle_loop rnd pos i arr).1 ≡ₚ arr.
Proof.
  induction i as [|i IH]; intros pos arr; simpl; [done|].
  rewrite IH. apply swap_Permutation.
Qed.

Lemma shuffle_loop_pos rnd i : ∀ pos arr,
  (shuffle_loop rnd pos i arr).2 = (pos + i)%nat.
Proof.
  induction i as [|i IH]; intros pos arr; simpl; [lia|].
  rewrite IH. lia.
Qed.

(** [shuffle] returns a rearrangement of its argument. *)
Lemma shuffle_Permutation rnd pos arr : (shuffle rnd pos arr).1 ≡ₚ arr.
Proof. apply shuffle_loop_Permutation. Qed.

(** One pass reads one draw per position but the first. *)
Lemma shuffle_pos rnd pos arr :
  (shuffle rnd pos arr).2 = (pos + (length arr - 1))%nat.
Proof. apply shuffle_loop_pos. Qed.

(** With draws in [0,1) every exchange of the loop is between two
    positions inside the array, where [swap] is the JS exchange. *)
Lemma shuffle_exchange_inside rnd pos i arr :
  unit_draws rnd → (i < length arr)%nat →
  is_Some (arr !! i) ∧ is_Some (arr !! randomIndex (rnd pos) i).
Proof.
  intros Hu Hi. destruct (Hu pos) as [H0 H1].
  pose proof (randomIndex_le (rnd pos) i H0 H1).
  split; apply lookup_lt_is_Some; lia.
Qed.
End ShuffleFacts.

(* ===================================================================== *)
(** ** The main sequence is the full factorial                             *)
(* ===================================================================== *)

Lemma countPair_app s d l1 l2 :
  countPair s d (l1 ++ l2) = (countPair s d l1 + countPair s d l2)%nat.
Proof. unfold countPair. by rewrite filter_app, length_app. Qed.

Lemma countPair_Permutation s d l1 l2 :
  l1 ≡ₚ l2 → countPair s d l1 = countPair s d l2.
Proof. intros H. unfold countPair. by rewrite H. Qed.

Lemma occurrences_app {A} `{EqDecision A} (x : A) l1 l2 :
  occurrences x (l1 ++ l2) = (occurrences x l1 + occurrences x l2)%nat.
Proof. unfold occurrences. by rewrite filter_app, length_app. Qed.

Lemma occurrences_cons {A} `{EqDecision A} (x y : A) l :
  occurrences x (y :: l)
  = ((if decide (y = x) then 1 else 0) + occurrences x l)%nat.
Proof.
  unfold occurrences. rewrite filter_cons. by destruct (decide (y = x)).
Qed.

Lemma occurrences_absent {A} `{EqDecision A} (x : A) l :
  x ∉ l → occurrences x l = 0%nat.
Proof.
  induction l as [|y l IH]; intros Hx; [done|].
  rewrite occurrences_cons. apply not_elem_of_cons in Hx as [Hne Hx].
  rewrite decide_False by done. by rewrite IH.
Qed.

(** A listed value of a duplicate-free list is listed once. *)
Lemma occurrences_NoDup {A} `{EqDecision A} (x : A) l :
  NoDup l → x ∈ l → occurrences x l = 1%nat.
Proof.
  induction 1 as [|y l Hy Hnd IH]; intros Hin.
  - by apply elem_of_nil in Hin.
  - rewrite occurrences_cons. destruct (decide (y = x)) as [->|Hne].
    + by rewrite occurrences_absent.
    + apply elem_of_cons in Hin as [->|Hin]; [done|]. by rewrite IH.
Qed.

Lemma countPair_words s d dur lex ws :
  countPair s d (map (fun w => mkTrial w lex (Some dur) None) ws)
  = if decide (dur = d) then occurrences s ws else 0%nat.
Proof.
  induction ws as [|w ws IH]; simpl.
  - by destruct (decide (dur = d)).
  - change (countPair s d (?t :: ?l)) with (countPair s d ([t] ++ l)).
    rewrite countPair_app, IH, occurrences_cons.
    unfold countPair. rewrite filter_cons, filter_nil. simpl.
    destruct (decide (w = s ∧ Some dur = Some d)) as [[-> [= ->]]|Hno].
    + by rewrite !decide_True.
    + destruct (decide (dur = d)) as [->|Hne]; [|done].
      destruct (decide (w = s)) as [->|Hws]; [|done].
      by destruct Hno.
Qed.

Lemma countPair_trialsForDuration cfg s d dur :
  countPair s d (trialsForDuration cfg dur)
  = if decide (dur = d)
    then occurrences s (words cfg ++ pseudowords cfg) else 0%nat.
Proof.
  unfold trialsForDuration.
  rewrite countPair_app, !countPair_words, occurrences_app.
  by destruct (decide (dur = d)).
Qed.

Lemma countPair_trialsForRep cfg s d :
  countPair s d (trialsForRep cfg)
  = (occurrences d (durations cfg)
     * occurrences s (words cfg ++ pseudowords cfg))%nat.
Proof.
  unfold trialsForRep. induction (durations cfg) as [|dur ds IH]; simpl.
  - done.
  - rewrite countPair_app, IH, countPair_trialsForDuration, occurrences_cons.
    destruct (decide (dur = d)); lia.
Qed.

Lemma countPair_buildTrials_loop cfg s d reps :
  countPair s d (buildTrials_loop cfg reps)
  = (reps * (occurrences d (durations cfg)
             * occurrences s (words cfg ++ pseudowords cfg)))%nat.
Proof.
  induction reps as [|reps IH]; simpl; [done|].
  by rewrite countPair_app, IH, countPair_trialsForRep.
Qed.

Lemma length_trialsForRep cfg :
  length (trialsForRep cfg)
  = (length (durations cfg)
     * (length (words cfg) + length (pseudowords cfg)))%nat.
Proof.
  unfold trialsForRep. induction (durations cfg) as [|dur ds IH]; simpl.
  - done.
  - rewrite length_app, IH. unfold trialsForDuration.
    rewrite length_app, !length_map. lia.
Qed.

Lemma length_buildTrials_loop cfg reps :
  length (buildTrials_loop cfg reps)
  = (reps * (length (durations cfg)
             * (length (words cfg) + length (pseudowords cfg))))%nat.
Proof.
  induction reps as [|reps IH]; simpl; [done|].
  by rewrite length_app, IH, length_trialsForRep.
Qed.

Lemma shuffleRetry_Permutation K rnd attempts : ∀ pos trials,
  (shuffleRetry K rnd attempts pos trials).1 ≡ₚ trials.
Proof.
  induction attempts as [|a IH]; intros pos trials; simpl; [done|].
  pose proof (shuffle_Permutation rnd pos trials) as Hs.
  destruct (shuffle rnd pos trials) as [t' p']. simpl in Hs.
  destruct (checkLexConstraint t' K); simpl; [done|].
  by rewrite IH.
Qed.

Lemma numberTrials_length i trials :
  length (numberTrials i trials) = length trials.
Proof.
  revert i. induction trials as [|t ts IH]; intros i; simpl; [done|].
  by rewrite IH.
Qed.

Lemma numberTrials_lookup trials : ∀ i k,
  numberTrials i trials !! k
  = (λ t, mkTrial (stimulus t) (lexicality t) (duration t) (Some (i + k)%nat))
      <$> trials !! k.
Proof.
  induction trials as [|t ts IH]; intros i k; simpl; [done|].
  destruct k as [|k]; simpl.
  - by rewrite Nat.add_0_r.
  - rewrite IH. by replace (S i + k)%nat with (i + S k)%nat by lia.
Qed.

Lemma countPair_numberTrials s d trials : ∀ i,
  countPair s d (numberTrials i trials) = countPair s d trials.
Proof.
  induction trials as [|t ts IH]; intros i; simpl; [done|].
  change (countPair s d (?t :: ?l)) with (countPair s d ([t] ++ l)).
  rewrite !countPair_app, IH. f_equal.
  unfold countPair. rewrite !filter_cons, !filter_nil. simpl.
  destruct (decide (stimulus t = s ∧ duration t = Some d)); done.
Qed.

Lemma generateTrials_Permutation cfg rnd pos :
  ∃ shuffled, shuffled ≡ₚ buildTrials cfg ∧
              (generateTrials cfg rnd pos).1 = numberTrials 0 shuffled.
Proof.
  unfold generateTrials.
  pose proof (shuffleRetry_Permutation (maxSameLexInRow cfg) rnd retryCap pos
                (buildTrials cfg)) as Hp.
  destruct (shuffleRetry _ rnd retryCap pos (buildTrials cfg)) as [ts p'].
  by exists ts.
Qed.

(** The specification's count fails for a repetition count below zero, which
    the start form lets through: with [-3] typed, [parseInt] gives [-3],
    [applyFormParameters] stores it, the loop over the repetitions never
    runs, and [generateTrials] returns no trial at all, where the
    specification's formula asks for [-120] of them. *)
Lemma generateTrials_negative_repetitions :
  reachableConfig negativeRepsConfig
  ∧ nReps negativeRepsConfig = -3
  ∧ (generateTrials negativeRepsConfig halfDraws 0).1 = []
  ∧ Z.of_nat (length (generateTrials negativeRepsConfig halfDraws 0).1)
    ≠ (Z.of_nat (length (words negativeRepsConfig))
       + Z.of_nat (length (pseudowords negativeRepsConfig)))
      * Z.of_nat (length (durations negativeRepsConfig))
      * nReps negativeRepsConfig.
Proof.
  split; [|split; [|split]].
  - constructor. constructor.
  - reflexivity.
  - vm_compute. reflexivity.
  - vm_compute. discriminate.
Qed.

(** C4, amended.  Whatever the draws and whatever the repetition count [R],
    [generateTrials] returns [(|W| + |P|) * |D| * max(R, 0)] trials; the pair
    of a stimulus and a duration occurs [max(R, 0)] times for each time the
    stimulus is listed in [W ++ P] and the duration in [D], hence exactly
    [max(R, 0)] times for every pair of [(W ∪ P) × D] when the catalog and the
    duration levels list nothing twice; the trial at position [i] carries
    trial number [i]; and a count below zero yields no trial. *)
Theorem generateTrials_full_factorial (cfg : Config) (rnd : Rand) (pos : nat) :
  let R := Z.max 0 (nReps cfg) in
  let trials := (generateTrials cfg rnd pos).1 in
  Z.of_nat (length trials)
  = (Z.of_nat (length (words cfg)) + Z.of_nat (length (pseudowords cfg)))
    * Z.of_nat (length (durations cfg)) * R
  ∧ (∀ s d,
       Z.of_nat (countPair s d trials)
       = R * Z.of_nat (occurrences s (words cfg ++ pseudowords cfg))
         * Z.of_nat (occurrences d (durations cfg)))
  ∧ (NoDup (words cfg ++ pseudowords cfg) → NoDup (durations cfg) →
     ∀ s d, s ∈ words cfg ++ pseudowords cfg → d ∈ durations cfg →
            Z.of_nat (countPair s d trials) = R)
  ∧ (∀ i t, trials !! i = Some t → trialNumber t = Some i)
  ∧ (nReps cfg < 0 → trials = []).
Proof.
  intros R trials.
  assert (HR : Z.of_nat (Z.to_nat (nReps cfg)) = R) by (subst R; lia).
  destruct (generateTrials_Permutation cfg rnd pos) as (sh & Hperm & Heq).
  assert (Hcount : ∀ s d,
    Z.of_nat (countPair s d trials)
    = R * Z.of_nat (occurrences s (words cfg ++ pseudowords cfg))
      * Z.of_nat (occurrences d (durations cfg))).
  { intros s d. subst trials. rewrite Heq, countPair_numberTrials.
    rewrite (countPair_Permutation _ _ _ _ Hperm). unfold buildTrials.
    rewrite countPair_buildTrials_loop, !Nat2Z.inj_mul, HR. lia. }
  assert (Hlen : Z.of_nat (length trials)
    = (Z.of_nat (length (words cfg)) + Z.of_nat (length (pseudowords cfg)))
      * Z.of_nat (length (durations cfg)) * R).
  { subst trials. rewrite Heq, numberTrials_length, Hperm. unfold buildTrials.
    rewrite length_buildTrials_loop, !Nat2Z.inj_mul, Nat2Z.inj_add, HR. lia. }
  split; [exact Hlen|]. split; [exact Hcount|]. split; [|split].
  - intros Hnd1 Hnd2 s d Hs Hd. rewrite Hcount.
    rewrite (occurrences_NoDup s _ Hnd1 Hs), (occurrences_NoDup d _ Hnd2 Hd).
    lia.
  - intros i t. subst trials. rewrite Heq, numberTrials_lookup.
    destruct (sh !! i) as [t0|]; simpl; [|done]. by intros [= <-].
  - intros Hneg. apply length_zero_iff_nil. apply Nat2Z.inj. rewrite Hlen.
    subst R. rewrite Z.max_l by lia. lia.
Qed.

(** The shipped configuration lists nothing twice, and asks for one
    repetition: 40 trials, every pair once. *)
Lemma generateTrials_full_factorial_witness :
  NoDup (words CONFIG ++ pseudowords CONFIG) ∧ NoDup (durations CONFIG) ∧
  length (generateTrials CONFIG halfDraws 0).1 = 40%nat ∧
  countPair "river" 40 (generateTrials CONFIG halfDraws 0).1 = 1%nat.
Proof.
  assert (Hw : NoDup (words CONFIG ++ pseudowords CONFIG))
    by (apply (bool_decide_unpack _); vm_compute; exact I).
  assert (Hd : NoDup (durations CONFIG))
    by (apply (bool_decide_unpack _); vm_compute; exact I).
  destruct (generateTrials_full_factorial CONFIG halfDraws 0)
    as (Hlen & _ & Hpair & _).
  split; [exact Hw|]. split; [exact Hd|]. split.
  - apply Nat2Z.inj. rewrite Hlen. reflexivity.
  - apply Nat2Z.inj. rewrite (Hpair Hw Hd "river"%string 40).
    + reflexivity.
    + apply (bool_decide_unpack _); vm_compute; exact I.
    + apply (bool_decide_unpack _); vm_compute; exact I.
Defined.

(* ===================================================================== *)
(** ** The lexicality-run constraint                                       *)
(* ===================================================================== *)

Lemma isRun_inside trials i len :
  isRun trials i len → (i + len ≤ length trials)%nat.
Proof.
  intros [Hpos [lex Hrun]].
  specialize (Hrun (len - 1)%nat ltac:(lia)).
  destruct (trials !! (i + (len - 1))%nat) as [t|] eqn:Hl; [|done].
  apply lookup_lt_Some in Hl. lia.
Qed.

(** Runs only look at the lexicalities. *)
Lemma isRun_lexicalities l1 l2 i len :
  lexicality <$> l1 = lexicality <$> l2 → isRun l1 i len → isRun l2 i len.
Proof.
  intros Heq [Hpos [lex Hrun]]. split; [done|]. exists lex. intros j Hj.
  rewrite <- list_lookup_fmap, <- Heq, list_lookup_fmap. by apply Hrun.
Qed.

Lemma noLongRun_lexicalities K l1 l2 :
  lexicality <$> l1 = lexicality <$> l2 → noLongRun K l1 ↔ noLongRun K l2.
Proof.
  intros Heq. split; intros H i len Hrun; apply (H i len).
  - by apply (isRun_lexicalities l2 l1).
  - by apply (isRun_lexicalities l1 l2).
Qed.

Section RunOfOneLexicality.
Variable K : Z.
Variable prev : Lexicality.

(** A stand-in for an already examined trial of lexicality [prev]. *)
Let seen : TrialSpec := mkTrial EmptyString prev None None.

Lemma noLongRun_replicate (c : nat) :
  Z.of_nat c <= K → noLongRun K (replicate c seen).
Proof.
  intros Hc i len Hrun. apply isRun_inside in Hrun.
  rewrite length_replicate in Hrun. lia.
Qed.

(** [c] trials of one lexicality followed by one more of it make a run of
    [c + 1]. *)
Lemma isRun_extended (c : nat) (t : TrialSpec) rest :
  lexicality t = prev → isRun (replicate c seen ++ t :: rest) 0 (S c).
Proof.
  intros Ht. split; [lia|]. exists prev. intros j Hj. simpl.
  destruct (decide (j < c)%nat) as [Hlt|Hge].
  - rewrite lookup_app_l by (by rewrite length_replicate).
    by rewrite lookup_replicate_2.
  - assert (j = c) as -> by lia.
    rewrite lookup_app_r by (by rewrite length_replicate).
    rewrite length_replicate, Nat.sub_diag. simpl. by rewrite Ht.
Qed.

(** A trial of the other lexicality cuts every run: the long runs before
    and after it are those of the two parts. *)
Lemma noLongRun_cut (c : nat) (t : TrialSpec) rest :
  lexicality t ≠ prev → Z.of_nat c <= K →
  noLongRun K (replicate c seen ++ t :: rest) ↔ noLongRun K (t :: rest).
Proof.
  intros Ht Hc. split; intros H i len Hrun.
  - apply (H (c + i)%nat len). destruct Hrun as [Hpos [lex Hrun]].
    split; [done|]. exists lex. intros j Hj.
    rewrite lookup_app_r by (rewrite length_replicate; lia).
    rewrite length_replicate.
    replace (c + i + j - c)%nat with (i + j)%nat by lia. by apply Hrun.
  - destruct (decide (i + len ≤ c)%nat) as [Hin|Hout]; [lia|].
    destruct (decide (c ≤ i)%nat) as [Hafter|Hacross].
    + apply (H (i - c)%nat len). destruct Hrun as [Hpos [lex Hrun]].
      split; [done|]. exists lex. intros j Hj.
      specialize (Hrun j Hj).
      rewrite lookup_app_r in Hrun by (rewrite length_replicate; lia).
      rewrite length_replicate in Hrun.
      by replace (i - c + j)%nat with (i + j - c)%nat by lia.
    + exfalso. destruct Hrun as [Hpos [lex Hrun]].
      pose proof (Hrun (c - 1 - i)%nat ltac:(lia)) as H1.
      pose proof (Hrun (c - i)%nat ltac:(lia)) as H2.
      replace (i + (c - 1 - i))%nat with (c - 1)%nat in H1 by lia.
      replace (i + (c - i))%nat with c in H2 by lia.
      rewrite lookup_app_l in H1 by (rewrite length_replicate; lia).
      rewrite lookup_replicate_2 in H1 by lia.
      rewrite lookup_app_r in H2 by (by rewrite length_replicate).
      rewrite length_replicate, Nat.sub_diag in H2. simpl in *. congruence.
Qed.
End RunOfOneLexicality.

(** The loop invariant of [checkLexConstraint]: with [count] trials of
    lexicality [prev] just seen, the loop accepts the rest exactly when those
    trials followed by the rest have no long run. *)
Lemma checkLex_loop_spec K rest : ∀ prev count,
  1 <= count <= K →
  checkLex_loop K prev count rest = true
  ↔ noLongRun K (replicate (Z.to_nat count) (mkTrial EmptyString prev None None) ++ rest).
Proof.
  induction rest as [|t rest IH]; intros prev count Hc; simpl.
  - rewrite app_nil_r. split; [|done]. intros _.
    apply noLongRun_replicate. lia.
  - destruct (decide (lexicality t = prev)) as [Heq|Hne].
    + destruct (Z.gtb_spec (count + 1) K) as [Hgt|Hle].
      * split; [done|]. intros H.
        pose proof (H _ _ (isRun_extended prev (Z.to_nat count) t rest Heq)).
        lia.
      * rewrite IH by lia. apply noLongRun_lexicalities.
        replace (Z.to_nat (count + 1)) with (S (Z.to_nat count)) by lia.
        rewrite replicate_S_end, <- app_assoc.
        rewrite !fmap_app, !fmap_replicate. simpl. by rewrite Heq.
    + rewrite IH by lia.
      rewrite (noLongRun_cut K prev (Z.to_nat count) t rest Hne) by lia.
      apply noLongRun_lexicalities. done.
Qed.

(** [checkLexConstraint] decides the absence of long runs, for a cap of at
    least one trial. *)
Lemma checkLexConstraint_spec trials K :
  1 <= K → checkLexConstraint trials K = true ↔ noLongRun K trials.
Proof.
  intros HK. destruct trials as [|t0 rest]; simpl.
  - split; [|done]. intros _ i len Hrun. apply isRun_inside in Hrun.
    simpl in Hrun. lia.
  - rewrite checkLex_loop_spec by lia. apply noLongRun_lexicalities. done.
Qed.

Lemma numberTrials_lexicalities trials : ∀ i,
  lexicality <$> numberTrials i trials = lexicality <$> trials.
Proof.
  induction trials as [|t ts IH]; intros i; simpl; [done|].
  f_equal. apply IH.
Qed.

Lemma checkLexConstraint_lexicalities l1 l2 K :
  lexicality <$> l1 = lexicality <$> l2 →
  checkLexConstraint l1 K = checkLexConstraint l2 K.
Proof.
  assert (Hloop : ∀ r1 r2 prev count,
    lexicality <$> r1 = lexicality <$> r2 →
    checkLex_loop K prev count r1 = checkLex_loop K prev count r2).
  { induction r1 as [|a r1 IH]; intros [|b r2] prev count Heq;
      simplify_eq/=; [done|].
    rewrite H. destruct (decide (lexicality b = prev)).
    - destruct (count + 1 >? K); [done|]. by apply IH.
    - by apply IH. }
  destruct l1 as [|a l1], l2 as [|b l2]; intros Heq; simplify_eq/=; [done|].
  rewrite H. by apply Hloop.
Qed.

(** The retry loop stops on the first attempt that passes: when one of its
    attempts passes, what it returns passes. *)
Lemma shuffleRetry_passes K rnd attempts : ∀ pos trials,
  (∃ k, (1 ≤ k ≤ attempts)%nat ∧ attemptPasses K rnd pos trials k) →
  checkLexConstraint (shuffleRetry K rnd attempts pos trials).1 K = true.
Proof.
  induction attempts as [|a IH]; intros pos trials (k & Hk & Hpass).
  - lia.
  - simpl. unfold attemptPasses in Hpass.
    destruct k as [|k]; [lia|]. simpl in Hpass.
    destruct (shuffle rnd pos trials) as [t' p'] eqn:Hsh.
    destruct (checkLexConstraint t' K) eqn:Hck; [done|].
    apply IH. exists k. split; [|done].
    destruct k as [|k]; [|lia]. simpl in Hpass. congruence.
Qed.

(** C5.  For a cap [K >= 1]: [checkLexConstraint(trials, K)] is true exactly
    when [trials] has no run of more than [K] consecutive entries of one
    lexicality; and when one of the at most 1000 shuffles of the retry loop
    passes this validation, the sequence [generateTrials] returns has no
    such run. *)
Theorem lexConstraint_checked_and_kept (cfg : Config) (rnd : Rand) (pos : nat) :
  1 <= maxSameLexInRow cfg →
  (∀ trials K, 1 <= K →
     checkLexConstraint trials K = true ↔ noLongRun K trials)
  ∧ ((∃ k, (1 ≤ k ≤ retryCap)%nat ∧
           attemptPasses (maxSameLexInRow cfg) rnd pos (buildTrials cfg) k) →
     noLongRun (maxSameLexInRow cfg) (generateTrials cfg rnd pos).1).
Proof.
  intros HK. split.
  - intros trials K HK'. by apply checkLexConstraint_spec.
  - intros Hpass. apply checkLexConstraint_spec; [done|].
    apply shuffleRetry_passes in Hpass. unfold generateTrials.
    destruct (shuffleRetry _ rnd retryCap pos (buildTrials cfg)) as [ts p'].
    simpl in *. rewrite <- Hpass.
    apply checkLexConstraint_lexicalities, numberTrials_lexicalities.
Qed.

(** With the shipped configuration and the draws [sixteenths] the sixth
    shuffle passes, and the sequence returned has no run above three. *)
Lemma lexConstraint_checked_and_kept_witness :
  1 <= maxSameLexInRow CONFIG ∧
  attemptPasses (maxSameLexInRow CONFIG) sixteenths 0 (buildTrials CONFIG) 6 ∧
  noLongRun (maxSameLexInRow CONFIG) (generateTrials CONFIG sixteenths 0).1.
Proof.
  assert (HK : 1 <= maxSameLexInRow CONFIG) by (simpl; lia).
  assert (Hp : attemptPasses (maxSameLexInRow CONFIG) sixteenths 0
                 (buildTrials CONFIG) 6) by (vm_compute; reflexivity).
  split; [exact HK|]. split; [exact Hp|].
  apply (lexConstraint_checked_and_kept CONFIG sixteenths 0 HK).
  exists 6%nat. split; [unfold retryCap; lia | exact Hp].
Defined.

(** The cap has to be a positive number of trials for the equivalence: with
    a cap of zero a single trial is already a run above the cap, and the
    function, which only ever counts from the second trial on, accepts it. *)
Example checkLexConstraint_zero_cap :
  checkLexConstraint [mkTrial "river" LexWord (Some 40) None] 0 = true
  ∧ ¬ noLongRun 0 [mkTrial "river" LexWord (Some 40) None].
Proof.
  split; [reflexivity|]. intros H.
  assert (Hrun : isRun [mkTrial "river" LexWord (Some 40) None] 0 1).
  { split; [lia|]. exists LexWord. intros [|j] Hj; [reflexivity|lia]. }
  apply H in Hrun. lia.
Qed.

(* ===================================================================== *)
(** ** The timing floor of a phase                                         *)
(* ===================================================================== *)

(** The comparison of doubles is transitive. *)
Lemma SFleb_trans a b c :
  SFleb a b = true → SFleb b c = true → SFleb a c = true.
Proof.
  unfold SFleb, SFcompare.
  destruct a as [sa|sa| |sa ma ea], b as [sb|sb| |sb mb eb],
    c as [sc|sc| |sc mc ec]; try done;
    repeat match goal with s : bool |- _ => destruct s end; try done.
  all: rewrite ?Pos.compare_cont_spec; simpl.
  all: destruct (Z.compare_spec ea eb), (Z.compare_spec eb ec),
         (Z.compare_spec ea ec); try done; try lia; subst; simpl.
  all: destruct (Pos.compare_spec ma mb), (Pos.compare_spec mb mc),
         (Pos.compare_spec ma mc); simpl; try done; try lia.
Qed.

Lemma leb_trans (a b c : float) :
  (a <=? b)%float = true → (b <=? c)%float = true → (a <=? c)%float = true.
Proof. rewrite !leb_spec. apply SFleb_trans. Qed.

Lemma ltb_not_leb (d : float) :
  (0 <? d)%float = true → (d <=? 0)%float = false.
Proof.
  rewrite ltb_spec, leb_spec. change (Prim2SF 0) with (S754_zero false).
  unfold SFltb, SFleb, SFcompare.
  destruct (Prim2SF d) as [s|s| |s m e]; try done; by destruct s.
Qed.

(** No double is below or equal to [NaN]. *)
Lemma leb_nan (d x : float) : Prim2SF x = S754_nan → (d <=? x)%float = false.
Proof.
  intros H. rewrite leb_spec, H. unfold SFleb, SFcompare.
  by destruct (Prim2SF d) as [[]|[]| |[] ? ?].
Qed.

(** A stamp minus itself is [+0] for a finite stamp, [NaN] otherwise. *)
Lemma sub_self (t : float) :
  Prim2SF (t - t)%float = if isFinite t then S754_zero false else S754_nan.
Proof.
  rewrite sub_spec. unfold isFinite, SF64sub, SFsub.
  destruct (Prim2SF t) as [s|s| |s m e]; try (by destruct s); try done.
  cbv zeta. rewrite Z.sub_diag. reflexivity.
Qed.

(** Once [startTime] is set, the callback resolves at the first stamp whose
    computed difference from it is [d] or more. *)
Lemma frame_started (d s : float) (stamps : list float) : ∀ t,
  frame d (Some s) stamps = Some t
  ↔ ∃ i, stamps !! i = Some t ∧ (d <=? t - s)%float = true ∧
         ∀ j tj, (j < i)%nat → stamps !! j = Some tj →
                 (d <=? tj - s)%float = false.
Proof.
  induction stamps as [|x later IH]; intros t; simpl.
  - split; [done|]. by intros (i & Hi & _).
  - destruct (d <=? x - s)%float eqn:Hx.
    + split.
      * intros [= <-]. exists 0%nat. split; [done|]. split; [done|].
        intros j tj Hj. lia.
      * intros (i & Hi & Hd & Hfirst). destruct i as [|i].
        -- simpl in Hi. by injection Hi as <-.
        -- pose proof (Hfirst 0%nat x ltac:(lia) eq_refl) as Hno. congruence.
    + rewrite IH. split.
      * intros (i & Hi & Hd & Hfirst). exists (S i). split; [done|].
        split; [done|]. intros [|j] tj Hj Hl; simpl in Hl.
        -- by injection Hl as <-.
        -- apply (Hfirst j tj); [lia|done].
      * intros (i & Hi & Hd & Hfirst). destruct i as [|i].
        -- simpl in Hi. injection Hi as <-. congruence.
        -- exists i. split; [done|]. split; [done|].
           intros j tj Hj Hl. apply (Hfirst (S j) tj); [lia|done].
Qed.

(** The first frame sets [startTime] to its own stamp. *)
Lemma showForDuration_first_frame (d t0 : float) (later : list float) :
  showForDuration d (t0 :: later) = frame d (Some t0) (t0 :: later).
Proof. reflexivity. Qed.

(** After the first frame the callback resolves as soon as the computed
    difference of some later stamp from the start is [d] or more. *)
Lemma frame_resolves (d s : float) (stamps : list float) :
  ∀ j tj, stamps !! j = Some tj → (d <=? tj - s)%float = true →
          is_Some (frame d (Some s) stamps).
Proof.
  induction stamps as [|x l IH]; intros j tj Hj Hd; [done|]. simpl.
  destruct (d <=? x - s)%float eqn:Hx; [by eexists|].
  destruct j as [|j]; simpl in Hj.
  - injection Hj as ->. congruence.
  - by apply (IH j tj).
Qed.

(** The specification's wording fails on the elapsed time itself: with the
    strictly increasing stamps 0.1, 200.1 and 216.8 ms and 200 ms requested,
    the test of the code passes at the second refresh, where the difference
    [200.1 - 0.1] rounds to the double 200, although the second stamp lies
    less than 200 ms after the first; the first refresh that does lie 200 ms
    or more after the first frame is the third. *)
Lemma showForDuration_resolves_on_rounded_difference :
  StronglySorted (fun a b => (a <? b)%float = true) earlyStamps
  ∧ showForDuration 200 earlyStamps = Some 0x1.9033333333333p+7%float
  ∧ exactlyReaches 200 0x1.999999999999ap-4 0x1.9033333333333p+7 = false
  ∧ exactlyReaches 200 0x1.999999999999ap-4 0x1.b19999999999ap+7 = true.
Proof.
  split; [|split; [|split]].
  - unfold earlyStamps. repeat constructor.
  - reflexivity.
  - vm_compute. reflexivity.
  - vm_compute. reflexivity.
Qed.

(** C7, amended.  On any sequence of refresh time stamps, [showForDuration]
    resolves with the stamp [t] exactly when [t] is the first refresh whose
    elapsed time since the phase's first frame, as the double-precision
    subtraction [timestamp - startTime] computes it, is at least the
    requested duration (so the computed elapsed time at resolution is never
    below it), and it resolves as soon as the computed elapsed time of any
    refresh reaches the requested duration. *)
Theorem showForDuration_first_reaching (d : float) (stamps : list float) :
  (∀ t, showForDuration d stamps = Some t
        ↔ ∃ i, firstRefreshReaching d stamps i t)
  ∧ (∀ t t0, showForDuration d stamps = Some t → stamps !! 0%nat = Some t0 →
             (d <=? t - t0)%float = true)
  ∧ (∀ t0 j tj, stamps !! 0%nat = Some t0 → stamps !! j = Some tj →
                (d <=? tj - t0)%float = true →
                is_Some (showForDuration d stamps)).
Proof.
  assert (Hiff : ∀ t, showForDuration d stamps = Some t
                      ↔ ∃ i, firstRefreshReaching d stamps i t).
  { intros t. destruct stamps as [|t0 later].
    - split; [done|]. by intros (i & t0 & H0 & _).
    - rewrite showForDuration_first_frame, frame_started. split.
      + intros (i & Hi & Hd & Hfirst). exists i, t0. done.
      + intros (i & t0' & H0 & Hi & Hd & Hfirst). simpl in H0.
        injection H0 as <-. by exists i. }
  split; [exact Hiff|]. split.
  - intros t t0 Hres H0. apply Hiff in Hres as (i & t0' & H0' & _ & Hd & _).
    congruence.
  - intros t0 j tj H0 Hj Hd. destruct stamps as [|t0' later]; [done|].
    simpl in H0. injection H0 as ->.
    rewrite showForDuration_first_frame. by apply (frame_resolves d t0 _ j tj).
Qed.

(** A 40 ms stimulus on a 16.7 ms refresh: the phase ends at the fourth
    frame, 50.1 ms after the first one, not at 33.4 ms. *)
Example showForDuration_40ms :
  showForDuration 40 sixtyHertz = sixtyHertz !! 3%nat.
Proof. reflexivity. Qed.

Lemma showForDuration_first_reaching_witness :
  ∃ i, firstRefreshReaching 40 sixtyHertz i 0x1.0686666666666p+10%float.
Proof.
  apply (showForDuration_first_reaching 40 sixtyHertz).
  reflexivity.
Defined.

(* ===================================================================== *)
(** ** The response window                                                 *)
(* ===================================================================== *)

(** While nothing is resolved, an event either resolves the window with its
    outcome and tears everything down, or changes nothing. *)
Lemma dispatch_fresh cfg start ev :
  dispatch cfg (waitForResponse start) ev
  = match outcomeOf cfg start ev with
    | Some r => resolvedWith start r
    | None => waitForResponse start
    end.
Proof.
  destruct ev as [key now|now|now|]; simpl; try reflexivity.
  unfold onKey, decisionOfKey.
  destruct (decide (toLowerCase key = keyWord cfg)); [reflexivity|].
  destruct (decide (toLowerCase key = keyNonword cfg)); reflexivity.
Qed.

(** Once resolved, the browser has nothing left to call. *)
Lemma dispatch_resolved cfg start r ev :
  dispatch cfg (resolvedWith start r) ev = resolvedWith start r.
Proof. by destruct ev. Qed.

Lemma dispatch_resolved_all cfg start r evs :
  fold_left (dispatch cfg) evs (resolvedWith start r) = resolvedWith start r.
Proof.
  induction evs as [|ev evs IH]; simpl; [done|].
  by rewrite dispatch_resolved.
Qed.

(** The whole window: it stays as entered until the first event with an
    outcome, and is resolved with that outcome from then on. *)
Lemma runWindow_firstOutcome cfg start evs :
  runWindow cfg start evs
  = match firstOutcome cfg start evs with
    | Some r => resolvedWith start r
    | None => waitForResponse start
    end.
Proof.
  unfold runWindow. induction evs as [|ev evs IH]; simpl; [done|].
  rewrite dispatch_fresh. destruct (outcomeOf cfg start ev) as [r|].
  - apply dispatch_resolved_all.
  - apply IH.
Qed.

(** The guard on [resolved] makes every handler a no-op after a resolution,
    even if it were called. *)
Lemma handlers_after_resolution cfg st :
  resolved st = true →
  (∀ key now, onKey cfg key now st = st)
  ∧ (∀ now, onTapWord cfg now st = st)
  ∧ (∀ now, onTapNonword cfg now st = st)
  ∧ onTimeout st = st.
Proof.
  intros Hr. unfold onKey, onTapWord, onTapNonword, onTimeout, respond.
  rewrite Hr. repeat split; try done.
  intros key now. by repeat case_decide.
Qed.

(** C6.  For every start time and every sequence of events delivered during
    one response window: [resolve] is called at most once, and exactly once
    as soon as an accepted input or the timer has occurred; the response is
    the outcome of the first such event, so later inputs and a later timer
    change nothing; a timer that comes first gives [{key: null, rt: null}];
    after the resolution the class, the three listeners and the timer are all
    removed, whichever side won; and no handler would act if called. *)
Theorem waitForResponse_resolves_once (cfg : Config) (start : Q)
    (evs : list Event) :
  let st := runWindow cfg start evs in
  resolutions st = option_list (firstOutcome cfg start evs)
  ∧ (length (resolutions st) ≤ 1)%nat
  ∧ (resolved st = true ↔ is_Some (firstOutcome cfg start evs))
  ∧ (resolved st = true → tornDown st)
  ∧ (resolved st = true →
     ∀ more, runWindow cfg start (evs ++ more) = st)
  ∧ (resolved st = true →
     (∀ key now, onKey cfg key now st = st)
     ∧ (∀ now, onTapWord cfg now st = st)
     ∧ (∀ now, onTapNonword cfg now st = st)
     ∧ onTimeout st = st)
  ∧ (∀ before after,
       evs = before ++ TimerExpires :: after →
       firstOutcome cfg start before = None →
       resolutions st = [mkResponse None None]).
Proof.
  intros st. subst st. rewrite runWindow_firstOutcome.
  split; [by destruct (firstOutcome cfg start evs)|].
  split; [destruct (firstOutcome cfg start evs); simpl; lia|].
  split.
  { destruct (firstOutcome cfg start evs) as [r|]; simpl.
    - split; [by eexists | done].
    - split; [done | by intros [? ?]]. }
  split; [by destruct (firstOutcome cfg start evs)|].
  split.
  { intros Hr more. unfold runWindow. rewrite fold_left_app.
    fold (runWindow cfg start evs). rewrite runWindow_firstOutcome.
    destruct (firstOutcome cfg start evs); [|done].
    apply dispatch_resolved_all. }
  split; [apply handlers_after_resolution|].
  intros before after -> Hnone.
  assert (firstOutcome cfg start (before ++ TimerExpires :: after)
          = Some (mkResponse None None)) as ->; [|done].
  clear -Hnone. induction before as [|ev before IH]; simpl in *; [done|].
  destruct (outcomeOf cfg start ev); [done|]. by apply IH.
Qed.

(** A key pressed 350 ms into a 2000 ms window wins with [rt = 350]; the
    timer and a later key change nothing. *)
Example waitForResponse_input_wins :
  resolutions (runWindow CONFIG 1000
                 [Keydown "x" 1100; Keydown "F" 1350; TimerExpires;
                  Keydown "j" 3100]%Q)
  = [mkResponse (Some "f"%string) (Some 350%Q)].
Proof. reflexivity. Qed.

(** With no accepted input the timer resolves the window with [null]s, and
    a key that comes afterwards is ignored. *)
Example waitForResponse_timeout_wins :
  resolutions (runWindow CONFIG 1000
                 [Keydown "x" 1100; TimerExpires; Keydown "j" 3100]%Q)
  = [mkResponse None None].
Proof. reflexivity. Qed.

Lemma waitForResponse_resolves_once_witness :
  resolutions (runWindow CONFIG 1000
                 [Keydown "x" 1100; TimerExpires; Keydown "j" 3100]%Q)
  = [mkResponse None None].
Proof.
  apply (waitForResponse_resolves_once CONFIG 1000
           [Keydown "x" 1100; TimerExpires; Keydown "j" 3100]%Q)
    with (before := [Keydown "x" 1100%Q]) (after := [Keydown "j" 3100%Q]);
    reflexivity.
Defined.

(* ===================================================================== *)
(** ** Scoring                                                             *)
(* ===================================================================== *)

(** [CONFIG] always binds "f" and "j", one to each decision. *)
Lemma reachableConfig_keys cfg :
  reachableConfig cfg →
  (keyWord cfg = "f"%string ∧ keyNonword cfg = "j"%string)
  ∨ (keyWord cfg = "j"%string ∧ keyNonword cfg = "f"%string).
Proof.
  induction 1 as [|form cfg Hr IH]; simpl.
  - by left.
  - destruct (param_swap form); [by right|exact IH].
Qed.

(** The stimuli, the durations and the run cap are never reconfigured. *)
Lemma reachableConfig_constants cfg :
  reachableConfig cfg →
  words cfg = words CONFIG ∧ pseudowords cfg = pseudowords CONFIG
  ∧ practiceItems cfg = practiceItems CONFIG
  ∧ durations cfg = durations CONFIG
  ∧ maxSameLexInRow cfg = maxSameLexInRow CONFIG.
Proof. induction 1 as [|form cfg Hr IH]; simpl; [done|exact IH]. Qed.

(** What the window can resolve with: the timeout response, or the key
    bound to a decision together with a reaction time. *)
Lemma firstOutcome_shape cfg start evs resp :
  firstOutcome cfg start evs = Some resp →
  resp = mkResponse None None
  ∨ ∃ d q, resp = mkResponse (Some (keyFor cfg d)) (Some q).
Proof.
  induction evs as [|ev evs IH]; simpl; [done|].
  destruct (outcomeOf cfg start ev) as [r|] eqn:Hev; [|exact IH].
  intros [= <-]. destruct ev as [key now|now|now|]; simpl in Hev.
  - destruct (decisionOfKey cfg (toLowerCase key)) as [d|]; [|done].
    injection Hev as <-. right. by eexists _, _.
  - injection Hev as <-. right. by exists DecideWord, (now - start)%Q.
  - injection Hev as <-. right. by exists DecideNonword, (now - start)%Q.
  - injection Hev as <-. by left.
Qed.

Lemma resolution_shape cfg start evs resp :
  resolutions (runWindow cfg start evs) = [resp] →
  resp = mkResponse None None
  ∨ ∃ d q, resp = mkResponse (Some (keyFor cfg d)) (Some q).
Proof.
  rewrite runWindow_firstOutcome.
  destruct (firstOutcome cfg start evs) as [r|] eqn:Hf; simpl; [|done].
  intros [= <-]. by apply firstOutcome_shape in Hf.
Qed.

(** With the two keys distinct, the key bound to [d] stands for [d]. *)
Lemma decisionOfKey_keyFor cfg d :
  reachableConfig cfg → decisionOfKey cfg (keyFor cfg d) = Some d.
Proof.
  intros Hr. unfold decisionOfKey.
  destruct (reachableConfig_keys cfg Hr) as [[Hw Hn]|[Hw Hn]];
    destruct d; simpl; rewrite ?Hw, ?Hn; reflexivity.
Qed.

Lemma runTrial_keyFor cfg trialInfo d q :
  reachableConfig cfg →
  let r := runTrial cfg trialInfo (mkResponse (Some (keyFor cfg d)) q) in
  r_response r = responseCode d
  ∧ r_accuracy r
    = (if decide (d = impliedDecision (lexicality trialInfo)) then 1 else 0)
  ∧ r_RT r ≠ RTEmpty.
Proof.
  intros Hr. unfold runTrial. simpl.
  destruct (reachableConfig_keys cfg Hr) as [[Hw Hn]|[Hw Hn]];
    destruct d, (lexicality trialInfo); simpl; rewrite ?Hw, ?Hn; done.
Qed.

(** C3.  For every trial completed under a configuration the program can
    be in, with [resp] what the response window resolved with: the result's
    accuracy is 1 exactly when a decision was made and it is the one the
    stimulus's lexicality calls for (and is 0 otherwise), and its [RT] field
    is non-empty exactly when a decision was made. *)
Theorem runTrial_accuracy_and_RT (cfg : Config) (trialInfo : TrialSpec)
    (start : Q) (evs : list Event) (resp : Response) :
  reachableConfig cfg →
  resolutions (runWindow cfg start evs) = [resp] →
  let r := runTrial cfg trialInfo resp in
  (r_accuracy r = 1
   ↔ decisionOf cfg resp = Some (impliedDecision (lexicality trialInfo)))
  ∧ (r_accuracy r = 1 ∨ r_accuracy r = 0)
  ∧ (r_RT r ≠ RTEmpty ↔ decisionOf cfg resp ≠ None)
  ∧ (decisionOf cfg resp = None ↔ resp_key resp = None).
Proof.
  intros Hr Hres r. subst r.
  apply resolution_shape in Hres as [->|(d & q & ->)].
  - unfold decisionOf; simpl. repeat split; try done; auto.
  - destruct (runTrial_keyFor cfg trialInfo d (Some q) Hr) as (_ & Hacc & Hrt).
    assert (decisionOf cfg (mkResponse (Some (keyFor cfg d)) (Some q))
            = Some d) as Hdec by (by apply decisionOfKey_keyFor).
    rewrite Hacc, Hdec. simpl resp_key.
    destruct (decide (d = impliedDecision (lexicality trialInfo))) as [->|Hne].
    + repeat split; try done; auto.
    + repeat split; try done; auto. intros [= ->]. done.
Qed.

(** "river" answered with the key for "word" is correct; "tible" answered
    the same way is not; a timeout scores 0 with an empty [RT]. *)
Example runTrial_scenarios :
  let river := mkTrial "river" LexWord (Some 40) (Some 0%nat) in
  let tible := mkTrial "tible" LexPseudoword (Some 40) (Some 1%nat) in
  r_accuracy (runTrial CONFIG river (mkResponse (Some "f"%string) (Some 350%Q)))
  = 1
  ∧ r_RT (runTrial CONFIG river (mkResponse (Some "f"%string) (Some 350%Q)))
    = RTSeconds 350000
  ∧ r_accuracy (runTrial CONFIG tible (mkResponse (Some "f"%string) (Some 350%Q)))
    = 0
  ∧ runTrial CONFIG river (mkResponse None None)
    = mkResult "river" LexWord (Some 40) RespEmpty RTEmpty 0.
Proof. repeat split; reflexivity. Qed.

Lemma runTrial_accuracy_and_RT_witness :
  reachableConfig CONFIG ∧
  resolutions (runWindow CONFIG 1000 [Keydown "F" 1350%Q])
  = [mkResponse (Some "f"%string) (Some 350%Q)] ∧
  r_accuracy (runTrial CONFIG (mkTrial "river" LexWord (Some 40) (Some 0%nat))
                (mkResponse (Some "f"%string) (Some 350%Q))) = 1.
Proof.
  split; [constructor|]. split; [reflexivity|].
  apply (runTrial_accuracy_and_RT CONFIG
           (mkTrial "river" LexWord (Some 40) (Some 0%nat)) 1000
           [Keydown "F" 1350%Q] (mkResponse (Some "f"%string) (Some 350%Q))).
  - constructor.
  - reflexivity.
  - reflexivity.
Defined.

(** C10.  Under any two configurations the program can be in, in particular
    one with the key swap and one without, a trial answered with the input
    bound to decision [d] records the same [response]: 1 when [d] is "word",
    0 when it is "nonword". *)
Theorem response_independent_of_binding (cfg1 cfg2 : Config)
    (trial1 trial2 : TrialSpec) (d : Decision) (rt1 rt2 : option Q) :
  reachableConfig cfg1 → reachableConfig cfg2 →
  let r1 := runTrial cfg1 trial1 (mkResponse (Some (keyFor cfg1 d)) rt1) in
  let r2 := runTrial cfg2 trial2 (mkResponse (Some (keyFor cfg2 d)) rt2) in
  r_response r1 = responseCode d
  ∧ r_response r2 = responseCode d
  ∧ (r_response r1 = RespNum 1 ↔ d = DecideWord)
  ∧ (r_response r1 = RespNum 0 ↔ d = DecideNonword).
Proof.
  intros H1 H2 r1 r2. subst r1 r2.
  destruct (runTrial_keyFor cfg1 trial1 d rt1 H1) as (E1 & _).
  destruct (runTrial_keyFor cfg2 trial2 d rt2 H2) as (E2 & _).
  rewrite E1, E2. destruct d; repeat split; done.
Qed.

(** The same "word" decision, once with the default keys (key "f") and once
    with swapped keys (key "j"), is recorded as 1 both times. *)
Lemma response_independent_of_binding_witness :
  let swapped := applyFormParameters (withSwap true blankForm) CONFIG in
  let river := mkTrial "river" LexWord (Some 40) (Some 0%nat) in
  keyFor CONFIG DecideWord = "f"%string ∧
  keyFor swapped DecideWord = "j"%string ∧
  r_response (runTrial CONFIG river
                (mkResponse (Some (keyFor CONFIG DecideWord)) (Some 350%Q)))
  = RespNum 1 ∧
  r_response (runTrial swapped river
                (mkResponse (Some (keyFor swapped DecideWord)) (Some 420%Q)))
  = RespNum 1.
Proof.
  intros swapped river.
  assert (H1 : reachableConfig CONFIG) by constructor.
  assert (H2 : reachableConfig swapped) by (constructor; constructor).
  destruct (response_independent_of_binding CONFIG swapped river river
              DecideWord (Some 350%Q) (Some 420%Q) H1 H2) as (E1 & E2 & _).
  split; [reflexivity|]. split; [reflexivity|]. split; [exact E1|exact E2].
Defined.

(* ===================================================================== *)
(** ** Starting without a participant identifier                           *)
(* ===================================================================== *)

(** An aborted start creates no session, no trial and no result list; it
    shows the alert, and it leaves [CONFIG] as the form has set it. *)
Lemma runExperiment_start_aborted form w w' :
  runExperiment_start form w = (w', Aborted) →
  trim (subject_id form) = EmptyString
  ∧ w_sessionDocId w' = w_sessionDocId w
  ∧ w_sessions w' = w_sessions w
  ∧ w_trials w' = w_trials w
  ∧ w_results w' = w_results w
  ∧ w_alerts w' = w_alerts w ++ ["Please enter a username."%string]
  ∧ w_config w' = applyFormParameters form (w_config w).
Proof.
  unfold runExperiment_start.
  destruct (decide (trim (subject_id form) = EmptyString)) as [He|Hne];
    intros [= <-]; done.
Qed.

(** C8, evaluated.  The start attempt [namelessForm] on the freshly loaded
    page aborts with no session and no trial created, but [CONFIG] is not
    what it was: the repetitions are 2 and the keys are swapped.  The swap
    then outlives the attempt: a second start with the box unticked and a
    username given still runs with "j" bound to "word". *)
Theorem runExperiment_abort_rewrites_config :
  let after := (runExperiment_start namelessForm initialWorld).1 in
  (runExperiment_start namelessForm initialWorld).2 = Aborted
  ∧ w_sessions after = [] ∧ w_trials after = [] ∧ w_sessionDocId after = None
  ∧ w_config after ≠ w_config initialWorld
  ∧ nReps (w_config after) = 2
  ∧ keyWord (w_config after) = "j"%string
  ∧ keyNonword (w_config after) = "f"%string
  ∧ keyWord (w_config (runExperiment_start
                         (mkForm None None None None None false "anna"
                            false false) after).1) = "j"%string
  ∧ keyWord (w_config (runExperiment_start
                         (mkForm None None None None None false "anna"
                            false false) initialWorld).1) = "f"%string.
Proof. repeat split; try reflexivity. intros H. discriminate H. Qed.

(* ===================================================================== *)
(** ** The practice sequence                                               *)
(* ===================================================================== *)







(* ===================================================================== *)
(** ** The two aggregations                                                *)
(* ===================================================================== *)

Lemma entry_computed {K V : Type} `{EqDecision K} (f : K → V) (keys : list K)
    (k : K) (v : V) :
  entry k (map (λ x, (x, f x)) keys) = Some v → v = f k.
Proof.
  induction keys as [|x keys IH]; simpl; [done|].
  destruct (decide (x = k)) as [->|Hne]; [by intros [= <-]|exact IH].
Qed.

(** A cell of the end-of-session summary is [stats] of its partition. *)
Lemma cellOf_computeSummary results lex dur cell :
  cellOf (computeSummary results) lex dur = Some cell →
  cell = stats (List.filter (matchesCell lex dur) results).
Proof.
  unfold cellOf, computeSummary. simpl.
  destruct lex; simpl; intros H;
    by apply (entry_computed
                (λ d, stats (List.filter (matchesCell _ d) results))) in H.
Qed.

(** A cell of the dashboard is [grandStat] of the clean trials. *)
Lemma grandCell_recomputeAll allTrials g lex dur cell :
  Dashboard.recomputeAll allTrials = Some g →
  grandCell g lex dur = Some cell →
  cell = Dashboard.grandStat (List.filter Dashboard.isClean allTrials) lex dur.
Proof.
  unfold Dashboard.recomputeAll, grandCell.
  destruct (length allTrials =? 0)%nat; [done|]. intros Hg H.
  injection Hg as <-.
  exact (entry_computed
           (λ c, Dashboard.grandStat
                   (List.filter Dashboard.isClean allTrials) (fst c) (snd c))
           Dashboard.conditions (lex, dur) cell H).
Qed.

(** The summary's empty cell: accuracy is the number 0. *)
Lemma stats_empty : stats [] = mkStats (Some (Num 0)) None 0.
Proof. reflexivity. Qed.

(** The specification's wording fails for the end-of-session summary: after one
    word trial, the pseudoword cell at 40 ms has no result and reports the
    accuracy 0, a number. *)
Lemma summary_empty_cell_accuracy_is_zero :
  ∃ cell,
    cellOf (computeSummary oneWordResult) LexPseudoword (Some 40) = Some cell
    ∧ List.filter (matchesCell LexPseudoword (Some 40)) oneWordResult = []
    ∧ acc cell = Some (Num 0)
    ∧ acc cell ≠ None.
Proof.
  exists (mkStats (Some (Num 0)) None 0). repeat split; done.
Qed.

(** C1, amended.  For every result set and every (lexicality, duration)
    cell with no matching result: the live view reports accuracy and mean
    reaction time as [null] (with [n = 0]); the end-of-session summary
    reports the mean reaction time as [null] and [n = 0], and the accuracy as
    the number 0. *)
Theorem empty_cell_reports :
  (∀ results lex dur cell,
     cellOf (computeSummary results) lex dur = Some cell →
     List.filter (matchesCell lex dur) results = [] →
     rt cell = None ∧ n cell = 0%nat ∧ acc cell = Some (Num 0))
  ∧ (∀ allTrials g lex dur cell,
       Dashboard.recomputeAll allTrials = Some g →
       grandCell g lex dur = Some cell →
       List.filter (matchesCell lex (Some dur))
         (List.filter Dashboard.isClean allTrials) = [] →
       Dashboard.acc cell = None ∧ Dashboard.meanRT cell = None
       ∧ Dashboard.n cell = 0%nat).
Proof.
  split.
  - intros results lex dur cell Hcell Hempty.
    apply cellOf_computeSummary in Hcell. rewrite Hempty in Hcell.
    by subst cell.
  - intros allTrials g lex dur cell Hg Hcell Hempty.
    apply (grandCell_recomputeAll _ _ _ _ _ Hg) in Hcell.
    unfold Dashboard.grandStat in Hcell. rewrite Hempty in Hcell.
    by subst cell.
Qed.

Lemma empty_cell_reports_witness :
  (∃ cell,
     cellOf (computeSummary oneWordResult) LexPseudoword (Some 40) = Some cell
     ∧ rt cell = None ∧ n cell = 0%nat ∧ acc cell = Some (Num 0))
  ∧ (∃ g cell,
       Dashboard.recomputeAll oneWordResult = Some g
       ∧ grandCell g LexPseudoword 40 = Some cell
       ∧ Dashboard.acc cell = None ∧ Dashboard.meanRT cell = None
       ∧ Dashboard.n cell = 0%nat).
Proof.
  destruct empty_cell_reports as [Hsum Hdash]. split.
  - exists (mkStats (Some (Num 0)) None 0). split; [reflexivity|].
    apply (Hsum oneWordResult LexPseudoword (Some 40)); reflexivity.
  - eexists _, (Dashboard.mkGrandStat None None 0).
    split; [reflexivity|]. split; [reflexivity|].
    eapply (Hdash oneWordResult _ LexPseudoword 40); reflexivity.
Defined.

Lemma isClean_RT t : Dashboard.isClean t = true → r_RT t ≠ RTEmpty.
Proof.
  unfold Dashboard.isClean. by destruct (bool_decide_reflect (r_RT t = RTEmpty)).
Qed.

Lemma filter_allClean results :
  allClean results → List.filter Dashboard.isClean results = results.
Proof.
  intros Hall. induction results as [|r rs IH]; simpl; [done|].
  rewrite (Hall r) by by left. f_equal. apply IH.
  intros x Hx. apply Hall. by right.
Qed.

(** On clean trials the summary's extra test on [RT] selects nothing less. *)
Lemma correct_filters_agree subset :
  allClean subset →
  List.filter (fun r => bool_decide (r_accuracy r = 1)
                        && negb (bool_decide (r_RT r = RTEmpty))) subset
  = List.filter (fun t => bool_decide (r_accuracy t = 1)) subset.
Proof.
  intros Hall. apply filter_ext_in. intros r Hr.
  apply list_elem_of_In, Hall, isClean_RT in Hr.
  rewrite (bool_decide_eq_false_2 _ Hr). by rewrite andb_true_r.
Qed.

(** The specification's wording fails: after one timed-out word trial at 40 ms the
    summary's cell has one sample and accuracy 0, while the live view, which
    drops the trial, has no sample and no accuracy. *)
Lemma aggregations_disagree_on_timeout :
  ∃ g c1 c2,
    Dashboard.recomputeAll oneTimeoutResult = Some g
    ∧ cellOf (computeSummary oneTimeoutResult) LexWord (Some 40) = Some c1
    ∧ grandCell g LexWord 40 = Some c2
    ∧ n c1 = 1%nat ∧ Dashboard.n c2 = 0%nat
    ∧ acc c1 ≠ Dashboard.acc c2.
Proof.
  eexists _, _, _. split; [reflexivity|]. split; [reflexivity|].
  split; [reflexivity|]. repeat split; done.
Qed.

(** C2, amended.  For every result set all of whose results have a reaction
    time within 0.2 s .. 2.0 s, and every cell both consumers report: the two
    report the same sample size and the same mean reaction time over accurate
    trials, and, when the cell has a sample, the same mean accuracy. *)
Theorem aggregations_agree_on_clean (results : list TrialResult)
    (g : list (Lexicality * Z * Dashboard.GrandStat))
    (lex : Lexicality) (dur : Z) (c1 : Stats) (c2 : Dashboard.GrandStat) :
  allClean results →
  Dashboard.recomputeAll results = Some g →
  cellOf (computeSummary results) lex (Some dur) = Some c1 →
  grandCell g lex dur = Some c2 →
  n c1 = Dashboard.n c2
  ∧ rt c1 = Dashboard.meanRT c2
  ∧ (n c1 ≠ 0%nat → acc c1 = Dashboard.acc c2).
Proof.
  intros Hclean Hg H1 H2.
  apply cellOf_computeSummary in H1.
  apply (grandCell_recomputeAll _ _ _ _ _ Hg) in H2.
  rewrite (filter_allClean _ Hclean) in H2. subst c1 c2.
  set (subset := List.filter (matchesCell lex (Some dur)) results).
  assert (Hsub : allClean subset).
  { intros r Hr. apply Hclean. apply list_elem_of_In in Hr.
    apply filter_In in Hr as [Hr _]. by apply list_elem_of_In. }
  unfold stats, Dashboard.grandStat. fold subset.
  rewrite (correct_filters_agree subset Hsub).
  destruct subset as [|r rs]; simpl; [done|].
  repeat split; done.
Qed.

Lemma aggregations_agree_on_clean_witness :
  allClean twoCleanResults ∧
  ∃ g c1 c2,
    Dashboard.recomputeAll twoCleanResults = Some g
    ∧ cellOf (computeSummary twoCleanResults) LexWord (Some 40) = Some c1
    ∧ grandCell g LexWord 40 = Some c2
    ∧ n c1 = 2%nat
    ∧ n c1 = Dashboard.n c2 ∧ rt c1 = Dashboard.meanRT c2
    ∧ acc c1 = Dashboard.acc c2.
Proof.
  assert (Hclean : allClean twoCleanResults).
  { intros r Hr. apply list_elem_of_In in Hr. simpl in Hr.
    destruct Hr as [<-|[<-|[]]]; reflexivity. }
  split; [exact Hclean|].
  destruct (Dashboard.recomputeAll twoCleanResults) as [g|] eqn:Hg;
    [|discriminate Hg].
  destruct (cellOf (computeSummary twoCleanResults) LexWord (Some 40))
    as [c1|] eqn:H1; [|discriminate H1].
  destruct (grandCell g LexWord 40) as [c2|] eqn:H2.
  2: { injection Hg as <-. discriminate H2. }
  exists g, c1, c2. split; [reflexivity|]. split; [reflexivity|].
  split; [exact H2|].
  assert (Hn : n c1 = 2%nat) by (injection H1 as <-; reflexivity).
  destruct (aggregations_agree_on_clean twoCleanResults g LexWord 40 c1 c2
              Hclean Hg H1 H2) as (En & Ert & Eacc).
  split; [exact Hn|]. split; [exact En|]. split; [exact Ert|].
  apply Eacc. rewrite Hn. discriminate.
Defined.


(* ===================================================================== *)
(** ** The mask and the stimulus shown                                     *)
(* ===================================================================== *)

Lemma repeatString_hash_length (count : nat) :
  String.length (repeatString "#" count) = count.
Proof. induction count as [|count IH]; simpl; [done|]. f_equal. exact IH. Qed.

Lemma repeatString_hash_get (count : nat) : ∀ i c,
  String.get i (repeatString "#" count) = Some c → c = "#"%char.
Proof.
  induction count as [|count IH]; intros i c; simpl; [done|].
  destruct i as [|i]; [by intros [= <-]|]. apply IH.
Qed.

Lemma toUpperCase_length (s : string) :
  String.length (toUpperCase s) = String.length s.
Proof. induction s as [|c s IH]; simpl; [done|]. f_equal. exact IH. Qed.

(** X1.  The mask is made of "#" only and has as many characters as the
    stimulus; so in every trial the text of the mask phase is as long as the
    upper-cased text of the stimulus phase before it. *)
Theorem generateMask_covers_stimulus (stim : string) :
  String.length (generateMask stim) = String.length stim
  ∧ (∀ i c, String.get i (generateMask stim) = Some c → c = "#"%char)
  ∧ ∀ cfg trialInfo resp shown mask d1 d2,
      (StimulusText shown, d1) ∈ trialPhases cfg trialInfo resp →
      (MaskText mask, d2) ∈ trialPhases cfg trialInfo resp →
      String.length mask = String.length shown.
Proof.
  split; [|split].
  - unfold generateMask. apply repeatString_hash_length.
  - apply repeatString_hash_get.
  - intros cfg trialInfo resp shown mask d1 d2 Hs Hm.
    unfold trialPhases in Hs, Hm.
    repeat (apply elem_of_cons in Hs as [Hs|Hs]; [try discriminate Hs|]);
      [|by apply elem_of_nil in Hs].
    repeat (apply elem_of_cons in Hm as [Hm|Hm]; [try discriminate Hm|]);
      [|by apply elem_of_nil in Hm].
    injection Hs as -> _. injection Hm as -> _.
    unfold generateMask.
    by rewrite repeatString_hash_length, toUpperCase_length.
Qed.

(* ===================================================================== *)
(** ** More on the shuffle                                                 *)
(* ===================================================================== *)

Section ShuffleSteps.
Context {A : Type}.
Implicit Types arr : list A.

Lemma swap_lookup_other arr i j k :
  k ≠ i → k ≠ j → swap arr i j !! k = arr !! k.
Proof.
  intros Hi Hj. unfold swap.
  destruct (arr !! i) as [x|]; [|done]. destruct (arr !! j) as [y|]; [|done].
  by rewrite !list_lookup_insert_ne.
Qed.

(** The loop counting down from [i] leaves every position above [i] as it
    is. *)
Lemma shuffle_loop_above rnd : ∀ i pos arr k,
  unit_draws rnd → (i < k)%nat →
  (shuffle_loop rnd pos i arr).1 !! k = arr !! k.
Proof.
  induction i as [|i IH]; intros pos arr k Hu Hk; simpl; [done|].
  rewrite IH by (done || lia).
  destruct (Hu pos) as [H0 H1].
  pose proof (randomIndex_le (rnd pos) (S i) H0 H1).
  apply swap_lookup_other; lia.
Qed.

(** X2.  [shuffle] returns a rearrangement of the array it is given, of the
    same length; it reads one draw per position but the first; and an array
    of at most one element comes back as it is, with no draw read. *)
Theorem shuffle_rearranges (rnd : Rand) (pos : nat) arr :
  (shuffle rnd pos arr).1 ≡ₚ arr
  ∧ length (shuffle rnd pos arr).1 = length arr
  ∧ (shuffle rnd pos arr).2 = (pos + (length arr - 1))%nat
  ∧ ((length arr ≤ 1)%nat → shuffle rnd pos arr = (arr, pos)).
Proof.
  split; [apply shuffle_Permutation|].
  split; [by rewrite shuffle_Permutation|].
  split; [apply shuffle_pos|].
  intros Hlen. unfold shuffle.
  by replace (length arr - 1)%nat with 0%nat by lia.
Qed.

(** X3.  With draws in [0,1) the first exchange settles the last position:
    it receives the element at the index drawn for it, and no later
    iteration moves it. *)
Theorem shuffle_last_position (rnd : Rand) (pos : nat) arr :
  unit_draws rnd → arr ≠ [] →
  (shuffle rnd pos arr).1 !! (length arr - 1)%nat
  = arr !! randomIndex (rnd pos) (length arr - 1)
  ∧ (randomIndex (rnd pos) (length arr - 1) ≤ length arr - 1)%nat.
Proof.
  intros Hu Hne. destruct (Hu pos) as [H0 H1].
  pose proof (randomIndex_le (rnd pos) (length arr - 1) H0 H1) as Hj.
  split; [|exact Hj].
  assert (Hlen : (0 < length arr)%nat) by (destruct arr; [done|simpl; lia]).
  unfold shuffle. destruct (length arr - 1)%nat as [|m] eqn:Hm; simpl.
  - by replace (randomIndex (rnd pos) 0) with 0%nat by lia.
  - rewrite shuffle_loop_above by (done || lia).
    destruct (lookup_lt_is_Some_2 arr (S m) ltac:(lia)) as [x Hx].
    destruct (lookup_lt_is_Some_2 arr (randomIndex (rnd pos) (S m))
                ltac:(lia)) as [y Hy].
    destruct (swap_lookup arr _ _ x y Hx Hy) as [Hi _]. by rewrite Hi, Hy.
Qed.
End ShuffleSteps.

Lemma halfDraws_unit : unit_draws halfDraws.
Proof. intros k. split; done. Qed.

Lemma shuffle_rearranges_witness :
  shuffle halfDraws 7 ["river"%string] = (["river"%string], 7%nat).
Proof.
  apply (shuffle_rearranges halfDraws 7 ["river"%string]). simpl. lia.
Defined.

Lemma shuffle_last_position_witness :
  unit_draws halfDraws ∧
  (shuffle halfDraws 0 [10; 20; 30; 40; 50]).1 !! 4%nat = Some 30.
Proof.
  split; [exact halfDraws_unit|].
  destruct (shuffle_last_position halfDraws 0 [10; 20; 30; 40; 50]
              halfDraws_unit ltac:(done)) as [H _].
  exact H.
Defined.

(* ===================================================================== *)
(** ** More on the run constraint and the retry loop                       *)
(* ===================================================================== *)

(** Below a cap of two the counter value does not matter: the loop stops at
    the first pair of neighbours of one lexicality. *)
Lemma checkLex_loop_small_cap K rest : ∀ prev c c',
  K <= 1 → 1 <= c → 1 <= c' →
  checkLex_loop K prev c rest = checkLex_loop 1 prev c' rest.
Proof.
  induction rest as [|t rest IH]; intros prev c c' HK Hc Hc'; simpl; [done|].
  destruct (decide (lexicality t = prev)).
  - destruct (Z.gtb_spec (c + 1) K); [|lia].
    destruct (Z.gtb_spec (c' + 1) 1); [done|lia].
  - by apply IH.
Qed.

(** X4.  A cap of one or less, zero and negative caps included, accepts
    exactly the sequences in which no two neighbours share a lexicality: it
    behaves as the cap 1 does, and never rejects a sequence of fewer than two
    trials. *)
Theorem checkLexConstraint_small_cap (trials : list TrialSpec) (K : Z) :
  K <= 1 →
  checkLexConstraint trials K = checkLexConstraint trials 1
  ∧ (checkLexConstraint trials K = true ↔ noLongRun 1 trials)
  ∧ ((length trials ≤ 1)%nat → checkLexConstraint trials K = true).
Proof.
  intros HK.
  assert (Heq : checkLexConstraint trials K = checkLexConstraint trials 1).
  { destruct trials as [|t0 rest]; simpl; [done|].
    by apply checkLex_loop_small_cap. }
  split; [exact Heq|]. split.
  - rewrite Heq. by apply checkLexConstraint_spec.
  - destruct trials as [|t0 [|t1 rest]]; simpl; [done|done|lia].
Qed.

Lemma checkLexConstraint_small_cap_witness :
  checkLexConstraint
    [mkTrial "river" LexWord (Some 40) None;
     mkTrial "tible" LexPseudoword (Some 40) None;
     mkTrial "sugar" LexWord (Some 200) None] (-5) = true.
Proof.
  destruct (checkLexConstraint_small_cap
              [mkTrial "river" LexWord (Some 40) None;
               mkTrial "tible" LexPseudoword (Some 40) None;
               mkTrial "sugar" LexWord (Some 200) None] (-5) ltac:(lia))
    as [Heq _].
  rewrite Heq. reflexivity.
Defined.

Lemma checkLex_loop_monotone K K' rest : ∀ prev c,
  K <= K' →
  checkLex_loop K prev c rest = true → checkLex_loop K' prev c rest = true.
Proof.
  induction rest as [|t rest IH]; intros prev c HK; simpl; [done|].
  destruct (decide (lexicality t = prev)).
  - destruct (Z.gtb_spec (c + 1) K); [done|].
    destruct (Z.gtb_spec (c + 1) K'); [lia|]. by apply IH.
  - by apply IH.
Qed.

(** X5.  Raising the cap never turns an accepted sequence into a rejected
    one. *)
Theorem checkLexConstraint_monotone (trials : list TrialSpec) (K K' : Z) :
  K <= K' →
  checkLexConstraint trials K = true → checkLexConstraint trials K' = true.
Proof.
  intros HK. destruct trials as [|t0 rest]; simpl; [done|].
  by apply checkLex_loop_monotone.
Qed.

Lemma checkLexConstraint_monotone_witness :
  checkLexConstraint (afterShuffles sixteenths 6 0 (buildTrials CONFIG)).1 5
  = true.
Proof.
  apply (checkLexConstraint_monotone _ 3 5); [lia|].
  vm_compute. reflexivity.
Defined.

Lemma afterShuffles_length rnd k : ∀ pos trials,
  length (afterShuffles rnd k pos trials).1 = length trials.
Proof.
  induction k as [|k IH]; intros pos trials; simpl; [done|].
  pose proof (shuffle_Permutation rnd pos trials) as Hp.
  destruct (shuffle rnd pos trials) as [t' p']. simpl in Hp.
  by rewrite IH, Hp.
Qed.

(** Each shuffle of the loop reads one draw per trial but the first. *)
Lemma afterShuffles_pos rnd k : ∀ pos trials,
  (afterShuffles rnd k pos trials).2
  = (pos + k * (length trials - 1))%nat.
Proof.
  induction k as [|k IH]; intros pos trials; simpl; [lia|].
  pose proof (shuffle_Permutation rnd pos trials) as Hp.
  pose proof (shuffle_pos rnd pos trials) as Hpos.
  destruct (shuffle rnd pos trials) as [t' p']. simpl in Hp, Hpos.
  rewrite IH, Hp, Hpos. lia.
Qed.

(** The retry loop makes exactly the shuffles up to the first one that
    passes. *)
Lemma shuffleRetry_first_pass K rnd attempts : ∀ pos trials k,
  (1 ≤ k ≤ attempts)%nat →
  attemptPasses K rnd pos trials k →
  (∀ k', (1 ≤ k' < k)%nat → ¬ attemptPasses K rnd pos trials k') →
  shuffleRetry K rnd attempts pos trials = afterShuffles rnd k pos trials.
Proof.
  induction attempts as [|a IH]; intros pos trials k Hk Hpass Hfirst; [lia|].
  destruct k as [|k]; [lia|].
  unfold attemptPasses in *. simpl in *.
  pose proof (Hfirst 1%nat) as H1. simpl in H1.
  destruct (shuffle rnd pos trials) as [t' p'] eqn:Hsh. simpl in H1.
  destruct k as [|k].
  - simpl in *. by rewrite Hpass.
  - destruct (checkLexConstraint t' K) eqn:Hck.
    { exfalso. apply H1; [lia|done]. }
    apply IH; [lia|done|].
    intros k' Hk' Hp. apply (Hfirst (S k')); [lia|]. simpl.
    by rewrite Hsh.
Qed.

(** It makes all its shuffles when none passes. *)
Lemma shuffleRetry_no_pass K rnd attempts : ∀ pos trials,
  (∀ k, (1 ≤ k ≤ attempts)%nat → ¬ attemptPasses K rnd pos trials k) →
  shuffleRetry K rnd attempts pos trials
  = afterShuffles rnd attempts pos trials.
Proof.
  induction attempts as [|a IH]; intros pos trials Hnone; simpl; [done|].
  pose proof (Hnone 1%nat ltac:(lia)) as H1.
  unfold attemptPasses in H1. simpl in H1.
  destruct (shuffle rnd pos trials) as [t' p'] eqn:Hsh. simpl in H1.
  destruct (checkLexConstraint t' K) eqn:Hck; [done|].
  apply IH. intros k Hk Hp. apply (Hnone (S k)); [lia|].
  unfold attemptPasses in *. simpl. by rewrite Hsh.
Qed.

(** X6.  When attempt [k] is the first of the retry loop to pass the
    validation, [generateTrials] returns the order of that [k]-th shuffle,
    numbered, and has read the draws of exactly [k] shuffles. *)
Theorem generateTrials_stops_at_first_pass (cfg : Config) (rnd : Rand)
    (pos k : nat) :
  (1 ≤ k ≤ retryCap)%nat →
  attemptPasses (maxSameLexInRow cfg) rnd pos (buildTrials cfg) k →
  (∀ k', (1 ≤ k' < k)%nat →
         ¬ attemptPasses (maxSameLexInRow cfg) rnd pos (buildTrials cfg) k') →
  generateTrials cfg rnd pos
  = (numberTrials 0 (afterShuffles rnd k pos (buildTrials cfg)).1,
     (pos + k * (length (buildTrials cfg) - 1))%nat).
Proof.
  intros Hk Hpass Hfirst. unfold generateTrials.
  rewrite (shuffleRetry_first_pass _ rnd retryCap pos _ k Hk Hpass Hfirst).
  pose proof (afterShuffles_pos rnd k pos (buildTrials cfg)) as Hpos.
  destruct (afterShuffles rnd k pos (buildTrials cfg)) as [ts p'].
  simpl in *. by rewrite Hpos.
Qed.

(** X7.  When none of the 1000 attempts passes, [generateTrials] returns
    the order of the 1000th shuffle all the same: a sequence that fails the
    validation, with the draws of 1000 shuffles read. *)
Theorem generateTrials_cap_exhausted (cfg : Config) (rnd : Rand) (pos : nat) :
  (∀ k, (1 ≤ k ≤ retryCap)%nat →
        ¬ attemptPasses (maxSameLexInRow cfg) rnd pos (buildTrials cfg) k) →
  generateTrials cfg rnd pos
  = (numberTrials 0 (afterShuffles rnd retryCap pos (buildTrials cfg)).1,
     (pos + retryCap * (length (buildTrials cfg) - 1))%nat)
  ∧ checkLexConstraint (generateTrials cfg rnd pos).1 (maxSameLexInRow cfg)
    = false.
Proof.
  intros Hnone.
  assert (Heq : generateTrials cfg rnd pos
    = (numberTrials 0 (afterShuffles rnd retryCap pos (buildTrials cfg)).1,
       (pos + retryCap * (length (buildTrials cfg) - 1))%nat)).
  { unfold generateTrials.
    rewrite (shuffleRetry_no_pass _ rnd retryCap pos _ Hnone).
    pose proof (afterShuffles_pos rnd retryCap pos (buildTrials cfg)) as Hpos.
    destruct (afterShuffles rnd retryCap pos (buildTrials cfg)) as [ts p'].
    simpl in *. by rewrite Hpos. }
  split; [exact Heq|]. rewrite Heq. simpl.
  rewrite (checkLexConstraint_lexicalities _
             (afterShuffles rnd retryCap pos (buildTrials cfg)).1)
    by apply numberTrials_lexicalities.
  specialize (Hnone retryCap ltac:(unfold retryCap; lia)).
  unfold attemptPasses in Hnone. by apply not_true_is_false.
Qed.

(** A bounded search through attempt numbers, for use on concrete runs. *)
Lemma attempts_checked (P : nat → Prop) (lo n : nat) :
  Forall P (seq lo n) → ∀ k, (lo ≤ k < lo + n)%nat → P k.
Proof.
  intros Hall k Hk. rewrite Forall_forall in Hall. apply Hall.
  apply elem_of_seq. lia.
Qed.

#[global] Instance attemptPasses_dec K rnd pos trials k :
  base.Decision (attemptPasses K rnd pos trials k).
Proof. unfold attemptPasses. apply _. Defined.

Lemma generateTrials_stops_at_first_pass_witness :
  generateTrials CONFIG sixteenths 0
  = (numberTrials 0 (afterShuffles sixteenths 6 0 (buildTrials CONFIG)).1,
     (0 + 6 * (length (buildTrials CONFIG) - 1))%nat).
Proof.
  apply (generateTrials_stops_at_first_pass CONFIG sixteenths 0 6).
  - unfold retryCap. lia.
  - vm_compute. reflexivity.
  - intros k' Hk'.
    apply (attempts_checked
             (λ k, ¬ attemptPasses (maxSameLexInRow CONFIG) sixteenths 0
                       (buildTrials CONFIG) k) 1 5); [|lia].
    apply (bool_decide_unpack _). vm_compute. exact I.
Defined.

Lemma afterShuffles_Permutation rnd k : ∀ pos trials,
  (afterShuffles rnd k pos trials).1 ≡ₚ trials.
Proof.
  induction k as [|k IH]; intros pos trials; simpl; [done|].
  pose proof (shuffle_Permutation rnd pos trials) as Hp.
  destruct (shuffle rnd pos trials) as [t' p']. simpl in Hp.
  by rewrite IH, Hp.
Qed.

(** More trials of a single lexicality than the cap allows in a row fail the
    validation in every order. *)
Lemma checkLexConstraint_one_lexicality trials K lex :
  1 <= K → (∀ t, t ∈ trials → lexicality t = lex) →
  K < Z.of_nat (length trials) → checkLexConstraint trials K = false.
Proof.
  intros HK Hall Hlen. apply not_true_is_false. intros Hck.
  apply checkLexConstraint_spec in Hck; [|done].
  specialize (Hck 0%nat (length trials)).
  assert (Hrun : isRun trials 0 (length trials)).
  { split; [lia|]. exists lex. intros j Hj. simpl.
    destruct (lookup_lt_is_Some_2 trials j Hj) as [t Ht]. rewrite Ht. simpl.
    f_equal. apply Hall. by eapply list_elem_of_lookup_2. }
  apply Hck in Hrun. lia.
Qed.

Lemma generateTrials_cap_exhausted_witness :
  checkLexConstraint (generateTrials wordsOnly halfDraws 0).1
    (maxSameLexInRow wordsOnly) = false
  ∧ generateTrials wordsOnly halfDraws 0
    = (numberTrials 0
         (afterShuffles halfDraws retryCap 0 (buildTrials wordsOnly)).1,
       (0 + retryCap * (length (buildTrials wordsOnly) - 1))%nat).
Proof.
  assert (Hnone : ∀ k, (1 ≤ k ≤ retryCap)%nat →
            ¬ attemptPasses (maxSameLexInRow wordsOnly) halfDraws 0
                (buildTrials wordsOnly) k).
  { intros k Hk Hpass. unfold attemptPasses in Hpass.
    rewrite (checkLexConstraint_one_lexicality _ _ LexWord) in Hpass.
    - discriminate Hpass.
    - simpl. lia.
    - intros t Ht. rewrite afterShuffles_Permutation in Ht.
      simpl in Ht.
      repeat (apply elem_of_cons in Ht as [->|Ht]; [reflexivity|]).
      by apply elem_of_nil in Ht.
    - rewrite afterShuffles_length. simpl. lia. }
  destruct (generateTrials_cap_exhausted wordsOnly halfDraws 0 Hnone)
    as [Heq Hfail].
  split; [exact Hfail|exact Heq].
Defined.

(* ===================================================================== *)
(** ** The main block of [runExperiment]                                   *)
(* ===================================================================== *)

(** X8.  The feedback a trial shows never contradicts what it records:
    "Too slow!" exactly when [response] and [RT] are empty, "Correct!"
    exactly when [accuracy] is 1, "Incorrect." exactly when a response was
    recorded with [accuracy] 0. *)
Theorem feedback_agrees_with_result (cfg : Config) (trialInfo : TrialSpec)
    (resp : Response) :
  let r := runTrial cfg trialInfo resp in
  let fb := feedbackOf cfg trialInfo resp in
  (fb = TooSlow ↔ r_response r = RespEmpty)
  ∧ (fb = TooSlow ↔ r_RT r = RTEmpty)
  ∧ (fb = Correct ↔ r_accuracy r = 1)
  ∧ (fb = Incorrect ↔ r_response r ≠ RespEmpty ∧ r_accuracy r = 0).
Proof.
  unfold runTrial, feedbackOf. destruct resp as [[key|] q]; simpl.
  - destruct (decide (lexicality trialInfo = LexWord));
      repeat case_bool_decide; repeat case_decide; simplify_eq;
      repeat split; try done; try (by intros [? ?]).
  - repeat split; try done; by intros [? ?].
Qed.

Lemma generateTrials_length cfg rnd pos :
  length (generateTrials cfg rnd pos).1
  = (Z.to_nat (nReps cfg)
     * (length (durations cfg)
        * (length (words cfg) + length (pseudowords cfg))))%nat.
Proof.
  destruct (generateTrials_Permutation cfg rnd pos) as (sh & Hperm & ->).
  rewrite numberTrials_length, Hperm. unfold buildTrials.
  apply length_buildTrials_loop.
Qed.

(** The repetition count is never 0: a typed 0 falls back to 1. *)
Lemma reachableConfig_nReps cfg : reachableConfig cfg → nReps cfg ≠ 0.
Proof.
  induction 1 as [|form cfg Hr IH]; simpl; [done|].
  unfold parseIntOr. destruct (param_reps form) as [n|]; [|done].
  destruct (Z.eqb_spec n 0); [done|done].
Qed.

Lemma mainTrials_fst cfg devMode rnd pos :
  (mainTrials cfg devMode rnd pos).1
  = if devMode then take 10 (generateTrials cfg rnd pos).1
    else (generateTrials cfg rnd pos).1.
Proof.
  unfold mainTrials. destruct (generateTrials cfg rnd pos) as [ts p'].
  by destruct devMode.
Qed.

(** X9.  Under any configuration the program can be in, the [totalTrials]
    stored in the session document is the number of trials the main block
    runs exactly when the repetition count is positive (40 per repetition,
    10 in dev mode); with a negative count typed into the form no trial is
    run while [totalTrials] is 10 or negative. *)
Theorem totalTrials_matches_main_block (cfg : Config) (devMode : bool)
    (rnd : Rand) (pos : nat) :
  reachableConfig cfg →
  (Z.of_nat (length (mainTrials cfg devMode rnd pos).1)
   = totalTrials cfg devMode ↔ 0 < nReps cfg)
  ∧ (nReps cfg < 0 → (mainTrials cfg devMode rnd pos).1 = []).
Proof.
  intros Hr. pose proof (reachableConfig_nReps cfg Hr) as Hnz.
  destruct (reachableConfig_constants cfg Hr) as (Hw & Hp & _ & Hd & _).
  pose proof (generateTrials_length cfg rnd pos) as Hlen.
  rewrite Hw, Hp, Hd in Hlen. simpl in Hlen.
  rewrite mainTrials_fst. unfold totalTrials. rewrite Hw, Hp, Hd. simpl.
  split.
  - destruct devMode.
    + rewrite length_take, Hlen. lia.
    + rewrite Hlen. lia.
  - intros Hneg. apply length_zero_iff_nil.
    destruct devMode; [rewrite length_take|]; rewrite Hlen; lia.
Qed.

Lemma totalTrials_matches_main_block_witness :
  reachableConfig (applyFormParameters namelessForm CONFIG) ∧
  length (mainTrials (applyFormParameters namelessForm CONFIG) true
            halfDraws 0).1 = 10%nat.
Proof.
  assert (Hr : reachableConfig (applyFormParameters namelessForm CONFIG))
    by (constructor; constructor).
  split; [exact Hr|].
  destruct (totalTrials_matches_main_block
              (applyFormParameters namelessForm CONFIG) true halfDraws 0 Hr)
    as [Hiff _].
  apply Nat2Z.inj. apply Hiff. simpl. lia.
Defined.

Lemma mainLoop_lookup cfg subjId trials : ∀ resps i k,
  mainLoop cfg subjId i trials resps !! k
  = match trials !! k, resps !! k with
    | Some t, Some resp => Some (mkRow (runTrial cfg t resp) (i + k) subjId)
    | _, _ => None
    end.
Proof.
  induction trials as [|t trials IH]; intros resps i k; simpl; [done|].
  destruct resps as [|resp resps]; simpl.
  - by destruct k; simpl; [|destruct (trials !! k)].
  - destruct k as [|k]; simpl.
    + by rewrite Nat.add_0_r.
    + rewrite IH. by replace (S i + k)%nat with (i + S k)%nat by lia.
Qed.

Lemma mainLoop_length cfg subjId trials : ∀ resps i,
  length (mainLoop cfg subjId i trials resps)
  = (length trials `min` length resps)%nat.
Proof.
  induction trials as [|t trials IH]; intros [|resp resps] i; simpl; try done.
  by rewrite IH.
Qed.

Lemma mainTrials_numbered cfg devMode rnd pos i t :
  (mainTrials cfg devMode rnd pos).1 !! i = Some t → trialNumber t = Some i.
Proof.
  rewrite mainTrials_fst.
  assert (Hgen : ∀ j u, (generateTrials cfg rnd pos).1 !! j = Some u →
                        trialNumber u = Some j).
  { intros j u. destruct (generateTrials_Permutation cfg rnd pos)
      as (sh & _ & ->).
    rewrite numberTrials_lookup. destruct (sh !! j); simpl; [|done].
    by intros [= <-]. }
  destruct devMode; [|apply Hgen].
  intros Ht. apply lookup_take_Some in Ht as [Ht _]. by apply Hgen.
Qed.

(** X10.  The main loop pushes one result per trial run, in trial order:
    the result at position [i] is what [runTrial] returned for trial [i]
    answered by response [i], it carries the participant's identifier, and
    its [trialNumber] is [i], the number the generator gave that trial (also
    in dev mode). *)
Theorem mainLoop_results_in_order (cfg : Config) (devMode : bool)
    (rnd : Rand) (pos : nat) (subjId : string) (resps : list Response) :
  let trials := (mainTrials cfg devMode rnd pos).1 in
  let results := mainLoop cfg subjId 0 trials resps in
  length results = (length trials `min` length resps)%nat
  ∧ ∀ i row, results !! i = Some row →
      row_trialNumber row = i ∧ row_subject row = subjId
      ∧ ∃ t resp, trials !! i = Some t ∧ resps !! i = Some resp
                  ∧ row_result row = runTrial cfg t resp
                  ∧ trialNumber t = Some i
                  ∧ r_stimulus (row_result row) = stimulus t.
Proof.
  intros trials results. split; [apply mainLoop_length|].
  intros i row. subst results. rewrite mainLoop_lookup.
  destruct (trials !! i) as [t|] eqn:Ht; [|done].
  destruct (resps !! i) as [resp|] eqn:Hresp; [|done].
  intros [= <-]. simpl. repeat split. exists t, resp.
  repeat split; try done. by apply (mainTrials_numbered cfg devMode rnd pos).
Qed.

Lemma flat_map_loopBody_away cfg trials lo n :
  (∀ i, (lo ≤ i < lo + n)%nat → i ≠ midpoint trials) →
  flat_map (loopBody cfg trials) (seq lo n) = map RunTrial (seq lo n).
Proof.
  revert lo. induction n as [|n IH]; intros lo Haway; simpl; [done|].
  rewrite IH by (intros i Hi; apply Haway; lia). f_equal.
  unfold loopBody. destruct (Nat.eqb_spec lo (midpoint trials)) as [He|_].
  - exfalso. apply (Haway lo); [lia|done].
  - by rewrite andb_false_r.
Qed.

(** X11.  The main loop opens the break gate at most once: with more than
    one repetition and at least one trial, right before trial
    [floor(n / 2)], after that many trials have run; never otherwise. *)
Theorem mainSchedule_break (cfg : Config) (trials : list TrialSpec) :
  let n := length trials in
  let mid := midpoint trials in
  mainSchedule cfg trials
  = if (1 <? nReps cfg) && (0 <? n)%nat
    then map RunTrial (seq 0 mid) ++ [BreakGate]
         ++ map RunTrial (seq mid (n - mid))
    else map RunTrial (seq 0 n).
Proof.
  intros n mid. unfold mainSchedule. fold n.
  destruct (Z.ltb_spec 1 (nReps cfg)) as [Hreps|Hreps]; simpl.
  - destruct (Nat.ltb_spec 0 n) as [Hn|Hn].
    + assert (Hmid : (mid < n)%nat).
      { subst mid. unfold midpoint. fold n. apply Nat.div_lt; lia. }
      replace n with (mid + S (n - mid - 1))%nat at 1 by lia.
      rewrite seq_app, flat_map_app. simpl.
      rewrite flat_map_loopBody_away by (intros i Hi; fold mid; lia).
      rewrite flat_map_loopBody_away by (intros i Hi; fold mid; lia).
      f_equal. unfold loopBody. fold mid. rewrite Nat.eqb_refl.
      destruct (Z.ltb_spec 1 (nReps cfg)); [|lia]. simpl. f_equal.
      replace (n - mid)%nat with (S (n - mid - 1)) at 2 by lia. done.
    + replace n with 0%nat by lia. done.
  - induction (seq 0 n) as [|i l IH]; simpl; [done|]. rewrite IH.
    unfold loopBody. destruct (Z.ltb_spec 1 (nReps cfg)); [lia|done].
Qed.

(* ===================================================================== *)
(** ** The exported table                                                  *)
(* ===================================================================== *)

Lemma countChar_app c s1 s2 :
  countChar c (s1 ++ s2) = (countChar c s1 + countChar c s2)%nat.
Proof.
  induction s1 as [|a s1 IH]; simpl; [done|]. rewrite IH. lia.
Qed.

Lemma countChar_concat c sep (pieces : list string) :
  countChar c (String.concat sep pieces)
  = (sum_list (map (countChar c) pieces)
     + (length pieces - 1) * countChar c sep)%nat.
Proof.
  induction pieces as [|x pieces IH]; simpl; [done|].
  destruct pieces as [|y pieces].
  - simpl. lia.
  - rewrite !countChar_app, IH. simpl. lia.
Qed.

Lemma splitOn_whole c s : countChar c s = 0%nat → splitOn c s = [s].
Proof.
  induction s as [|a s IH]; simpl; [done|].
  destruct (decide (a = c)); [done|]. intros H. by rewrite IH.
Qed.

Lemma splitOn_app c s1 s2 :
  countChar c s1 = 0%nat →
  splitOn c (s1 ++ String c s2) = s1 :: splitOn c s2.
Proof.
  induction s1 as [|a s1 IH]; simpl.
  - intros _. by rewrite decide_True.
  - destruct (decide (a = c)); [done|]. intros H. by rewrite IH.
Qed.

(** Splitting undoes joining when no piece holds the separator. *)
Lemma splitOn_concat c (pieces : list string) :
  pieces ≠ [] → Forall (λ s, countChar c s = 0%nat) pieces →
  splitOn c (String.concat (String c EmptyString) pieces) = pieces.
Proof.
  induction pieces as [|x pieces IH]; intros Hne Hall; [done|].
  inversion Hall as [|? ? Hx Hrest]; subst. simpl.
  destruct pieces as [|y pieces].
  - by apply splitOn_whole.
  - change (x ++ String c EmptyString ++ ?t)%string
      with (x ++ String c t)%string.
    rewrite splitOn_app by done. f_equal. by apply IH.
Qed.

Lemma string_app_assoc (s1 s2 s3 : string) :
  ((s1 ++ s2) ++ s3 = s1 ++ (s2 ++ s3))%string.
Proof.
  induction s1 as [|a s1 IH]; [done|].
  change (String a ((s1 ++ s2) ++ s3) = String a (s1 ++ (s2 ++ s3)))%string.
  by rewrite IH.
Qed.

(** The same with the separator once more at the end: a last, empty piece. *)
Lemma splitOn_concat_end c (pieces : list string) :
  pieces ≠ [] → Forall (λ s, countChar c s = 0%nat) pieces →
  splitOn c (String.concat (String c EmptyString) pieces
             ++ String c EmptyString)
  = pieces ++ [EmptyString].
Proof.
  induction pieces as [|x pieces IH]; intros Hne Hall; [done|].
  inversion Hall as [|? ? Hx Hrest]; subst. simpl.
  destruct pieces as [|y pieces].
  - by rewrite splitOn_app.
  - rewrite string_app_assoc.
    set (rest := String.concat (String c EmptyString) (y :: pieces)) in *.
    change ((String c EmptyString ++ rest) ++ String c EmptyString)%string
      with (String c (rest ++ String c EmptyString)).
    rewrite splitOn_app by done. f_equal. by apply IH.
Qed.

Lemma csvLine_cells columns row :
  csvLine columns row = String.concat "," (cellsOf columns row).
Proof. reflexivity. Qed.

(** X12.  [toCSV] writes cells as they are, without quoting: a line holds
    one comma per column after the first, plus every comma that occurs
    inside its cells, so a comma in a cell (a username, say) shifts the
    fields that follow it. *)
Theorem csvLine_commas (columns : list string)
    (row : string → option string) :
  countChar commaChar (csvLine columns row)
  = (length columns - 1
     + sum_list (map (countChar commaChar) (cellsOf columns row)))%nat.
Proof.
  rewrite csvLine_cells, countChar_concat. unfold cellsOf at 2.
  rewrite length_map. simpl. lia.
Qed.

Lemma plain_no_lineFeed (pieces : list string) :
  Forall plainText pieces →
  sum_list (map (countChar lineFeed) pieces) = 0%nat.
Proof.
  induction 1 as [|x l [_ Hx] _ IH]; simpl; [done|]. by rewrite Hx, IH.
Qed.

(** Joining plain texts with commas brings in no line feed. *)
Lemma plain_joined (pieces : list string) :
  Forall plainText pieces →
  countChar lineFeed (String.concat "," pieces) = 0%nat.
Proof.
  intros Hall. rewrite countChar_concat, plain_no_lineFeed by done.
  simpl. lia.
Qed.

Lemma plain_line columns row :
  Forall plainText (cellsOf columns row) →
  countChar lineFeed (csvLine columns row) = 0%nat.
Proof. rewrite csvLine_cells. apply plain_joined. Qed.

(** X13.  When at least one column is asked for and neither a column name
    nor a cell holds a comma or a line feed, the text [toCSV] returns reads
    back: split at line feeds it is the header, one line per row and a final
    empty piece (for no rows: the header, one empty line and the empty
    piece), and every line split at commas is the row's cells, a missing
    value being the empty cell. *)
Theorem toCSV_reads_back (rows : list (string → option string))
    (columns : list string) :
  columns ≠ [] →
  Forall plainText columns →
  Forall (λ row, Forall plainText (cellsOf columns row)) rows →
  splitOn lineFeed (toCSV rows columns)
  = String.concat "," columns
    :: (if decide (rows = []) then [EmptyString]
        else map (csvLine columns) rows)
    ++ [EmptyString]
  ∧ splitOn commaChar (String.concat "," columns) = columns
  ∧ ∀ row, row ∈ rows →
           splitOn commaChar (csvLine columns row) = cellsOf columns row.
Proof.
  intros Hcols Hplain Hrows. split; [|split].
  - unfold toCSV, newline.
    change (String (ascii_of_nat 10) EmptyString ++ ?t)%string
      with (String lineFeed t).
    rewrite splitOn_app by (by apply plain_joined).
    f_equal. destruct (decide (rows = [])) as [->|Hne]; [done|].
    assert (Hlines : Forall (λ s, countChar lineFeed s = 0%nat)
                       (map (csvLine columns) rows)).
    { apply Forall_fmap. eapply Forall_impl; [exact Hrows|].
      intros row Hrow. by apply plain_line. }
    assert (Hnonempty : map (csvLine columns) rows ≠ [])
      by (by destruct rows).
    by apply (splitOn_concat_end lineFeed).
  - apply (splitOn_concat commaChar); [done|].
    eapply Forall_impl; [exact Hplain|]. by intros s [Hs _].
  - intros row Hrow. rewrite csvLine_cells.
    rewrite Forall_forall in Hrows. specialize (Hrows row Hrow).
    apply (splitOn_concat commaChar).
    + unfold cellsOf. by destruct columns.
    + eapply Forall_impl; [exact Hrows|]. by intros s [Hs _].
Qed.

#[global] Instance plainText_dec s : base.Decision (plainText s).
Proof. unfold plainText. apply _. Defined.

Lemma toCSV_reads_back_witness :
  splitOn lineFeed (toCSV [sampleRow] sampleColumns)
  = ["subject,RT,accuracy"; "anna,0.350000,"; EmptyString]%string
  ∧ splitOn commaChar (csvLine sampleColumns sampleRow)
    = ["anna"; "0.350000"; EmptyString]%string.
Proof.
  assert (Hcols : sampleColumns ≠ []) by done.
  assert (Hplain : Forall plainText sampleColumns)
    by (apply (bool_decide_unpack _); vm_compute; exact I).
  assert (Hrows : Forall (λ row, Forall plainText (cellsOf sampleColumns row))
                    [sampleRow]).
  { constructor; [|constructor].
    apply (bool_decide_unpack _); vm_compute; exact I. }
  destruct (toCSV_reads_back [sampleRow] sampleColumns Hcols Hplain Hrows)
    as (Hlines & _ & Hcells).
  split.
  - rewrite Hlines. reflexivity.
  - rewrite (Hcells sampleRow) by (by left). reflexivity.
Defined.

(* ===================================================================== *)
(** ** The name of the downloaded file                                     *)
(* ===================================================================== *)

Lemma replaceUnsafe_char_safe c :
  isSafeChar (if isSafeChar c then c else "_"%char) = true.
Proof. by destruct (isSafeChar c) eqn:Hc. Qed.

(** X14.  The replacement in the file name keeps the length of the
    identifier, leaves only letters, digits, "_" and "-", changes nothing
    when applied again, and leaves an identifier as it is exactly when all
    its characters are of that kind. *)
Theorem replaceUnsafe_safe (subjId : string) :
  String.length (replaceUnsafe subjId) = String.length subjId
  ∧ allSafe (replaceUnsafe subjId) = true
  ∧ replaceUnsafe (replaceUnsafe subjId) = replaceUnsafe subjId
  ∧ (replaceUnsafe subjId = subjId ↔ allSafe subjId = true).
Proof.
  induction subjId as [|c s (IHlen & IHsafe & IHidem & IHid)]; simpl.
  - repeat split; done.
  - split; [by rewrite IHlen|]. split.
    { by rewrite replaceUnsafe_char_safe, IHsafe. }
    split.
    { by rewrite replaceUnsafe_char_safe, IHidem. }
    destruct (isSafeChar c) eqn:Hc; simpl.
    + rewrite <- IHid. split; [by intros [= ->]|by intros ->].
    + split; [|done]. intros [= <- _]. done.
Qed.

(* ===================================================================== *)
(** ** Waiting on an instruction screen                                    *)
(* ===================================================================== *)

Lemma continueDispatch_waiting cfg buttons ev :
  continueDispatch cfg (waitForAnyResponseKey buttons) ev
  = if endsWait cfg buttons ev then continued buttons
    else waitForAnyResponseKey buttons.
Proof.
  destruct ev as [key|button]; simpl.
  - unfold continueDone, continued. simpl. case_decide.
    + rewrite bool_decide_eq_true_2 by done. f_equal.
      induction buttons as [|b IH]; simpl; [done|]. by f_equal.
    + by rewrite bool_decide_eq_false_2.
  - destruct (Nat.ltb_spec button buttons) as [Hlt|Hge].
    + rewrite lookup_replicate_2 by done. unfold continueDone, continued.
      simpl. f_equal.
      clear. induction buttons as [|b IH]; simpl; [done|]. by f_equal.
    + by rewrite (proj1 (lookup_replicate_None _ _ _)).
Qed.

Lemma continueDispatch_continued cfg buttons ev :
  continueDispatch cfg (continued buttons) ev = continued buttons.
Proof.
  destruct ev as [key|button]; simpl; [done|].
  destruct (replicate buttons false !! button) as [[|]|] eqn:Hl; [|done..].
  by apply lookup_replicate_1 in Hl as [? _].
Qed.

Lemma runContinue_spec cfg buttons evs :
  runContinue cfg buttons evs
  = if existsb (endsWait cfg buttons) evs then continued buttons
    else waitForAnyResponseKey buttons.
Proof.
  unfold runContinue. induction evs as [|ev evs IH]; simpl; [done|].
  rewrite continueDispatch_waiting.
  destruct (endsWait cfg buttons ev); simpl; [|exact IH].
  clear IH. induction evs as [|ev' evs IH]; simpl; [done|].
  by rewrite continueDispatch_continued.
Qed.

(** X15.  An instruction screen resolves at most once, and only on a press
    of one of the two response keys (in either case) or a tap on one of its
    continue buttons; when it has resolved, the keydown listener and every
    button's listener are removed; and as long as no such event arrives it
    keeps waiting with everything registered, whatever else is pressed and
    for however long: there is no timeout. *)
Theorem waitForAnyResponseKey_resolves_once (cfg : Config) (buttons : nat)
    (evs : list ContinueEvent) :
  let st := runContinue cfg buttons evs in
  (c_resolveCalls st ≤ 1)%nat
  ∧ (c_resolved st = true ↔ ∃ ev, ev ∈ evs ∧ endsWait cfg buttons ev = true)
  ∧ (c_resolved st = true →
     c_resolveCalls st = 1%nat ∧ c_keydownListener st = false
     ∧ c_tapListeners st = replicate buttons false)
  ∧ (c_resolved st = false → st = waitForAnyResponseKey buttons).
Proof.
  intros st. subst st. rewrite runContinue_spec.
  destruct (existsb (endsWait cfg buttons) evs) eqn:Hex; simpl.
  - split; [lia|]. split; [|done]. split; [|done]. intros _.
    apply existsb_exists in Hex as (ev & Hin & Hev).
    exists ev. split; [by apply list_elem_of_In|done].
  - split; [lia|]. split; [|done]. split; [done|].
    intros (ev & Hin & Hev).
    assert (existsb (endsWait cfg buttons) evs = true); [|congruence].
    apply existsb_exists. exists ev. split; [by apply list_elem_of_In|done].
Qed.

(* ===================================================================== *)
(** ** The dashboard's grouping and ranking                                *)
(* ===================================================================== *)

Section GroupBy.
Context {T : Type} (keyOf : T → string).

(** From a map whose group for [k] is [before k], the remaining items are
    appended to their groups in order. *)
Lemma groupBy_fold (arr : list T) : ∀ g0 : gmap string (list T),
  (∀ x, x ∈ arr → plainKey (keyOf x)) →
  ∃ g, fold_left (Dashboard.groupBy_step keyOf) arr (Some g0) = Some g
       ∧ ∀ k, g !! k
              = match g0 !! k, filter (λ x, keyOf x = k) arr with
                | None, [] => None
                | None, grp => Some grp
                | Some old, grp => Some (old ++ grp)
                end.
Proof.
  induction arr as [|x arr IH]; intros g0 Hplain; simpl.
  - exists g0. split; [done|]. intros k. destruct (g0 !! k); [|done].
    by rewrite app_nil_r.
  - assert (Hx : plainKey (keyOf x)) by (apply Hplain; by left).
    assert (Hrest : ∀ y, y ∈ arr → plainKey (keyOf y))
      by (intros y Hy; apply Hplain; by right).
    destruct (g0 !! keyOf x) as [old|] eqn:Hold.
    + destruct (IH (<[keyOf x := old ++ [x]]> g0) Hrest) as (g & Hg & Hlook).
      exists g. split; [exact Hg|]. intros k. rewrite Hlook, filter_cons.
      destruct (decide (keyOf x = k)) as [<-|Hne].
      * rewrite lookup_insert_eq, Hold. by rewrite <- app_assoc.
      * by rewrite lookup_insert_ne.
    + rewrite bool_decide_eq_false_2 by exact Hx.
      destruct (IH (<[keyOf x := [x]]> g0) Hrest) as (g & Hg & Hlook).
      exists g. split; [exact Hg|]. intros k. rewrite Hlook, filter_cons.
      destruct (decide (keyOf x = k)) as [<-|Hne].
      * by rewrite lookup_insert_eq, Hold.
      * by rewrite lookup_insert_ne.
Qed.

Lemma groupBy_thrown (arr : list T) :
  fold_left (Dashboard.groupBy_step keyOf) arr None = None.
Proof. by induction arr. Qed.

(** An item under an inherited name makes the [reduce] throw, whatever the
    groups built so far (none of which can be under such a name). *)
Lemma groupBy_fold_throws (arr : list T) : ∀ g0 : gmap string (list T),
  (∀ k, is_Some (g0 !! k) → plainKey k) →
  (∃ x, x ∈ arr ∧ ¬ plainKey (keyOf x)) →
  fold_left (Dashboard.groupBy_step keyOf) arr (Some g0) = None.
Proof.
  induction arr as [|x arr IH]; intros g0 Hinv (y & Hy & Hbad); simpl.
  - by apply elem_of_nil in Hy.
  - destruct (decide (plainKey (keyOf x))) as [Hx|Hx].
    + assert (Hrest : ∃ z, z ∈ arr ∧ ¬ plainKey (keyOf z)).
      { apply elem_of_cons in Hy as [->|Hy]; [done|]. by exists y. }
      destruct (g0 !! keyOf x) as [old|] eqn:Hold.
      * apply IH; [|done]. intros k [v Hk].
        destruct (decide (keyOf x = k)) as [<-|Hne]; [done|].
        rewrite lookup_insert_ne in Hk by done. by apply Hinv.
      * rewrite bool_decide_eq_false_2 by exact Hx.
        apply IH; [|done]. intros k [v Hk].
        destruct (decide (keyOf x = k)) as [<-|Hne]; [done|].
        rewrite lookup_insert_ne in Hk by done. by apply Hinv.
    + destruct (g0 !! keyOf x) as [old|] eqn:Hold.
      * exfalso. apply Hx, Hinv. by eexists.
      * unfold plainKey in Hx. apply dec_stable in Hx.
        rewrite bool_decide_eq_true_2 by exact Hx. apply groupBy_thrown.
Qed.

(** X16.  When no item's key is a name that objects inherit from
    [Object.prototype], [groupBy] returns, for every key that occurs, the
    items with that key in their order in the array, and has no group for a
    key that does not occur.  When some item's key is such a name
    ("constructor", "toString", ...) the call throws. *)
Theorem groupBy_groups (arr : list T) :
  ((∀ x, x ∈ arr → plainKey (keyOf x)) →
   ∃ g, Dashboard.groupBy keyOf arr = Some g
        ∧ ∀ k, g !! k = match filter (λ x, keyOf x = k) arr with
                        | [] => None
                        | grp => Some grp
                        end)
  ∧ ((∃ x, x ∈ arr ∧ ¬ plainKey (keyOf x)) →
     Dashboard.groupBy keyOf arr = None).
Proof.
  split.
  - intros Hplain. destruct (groupBy_fold arr ∅ Hplain) as (g & Hg & Hlook).
    exists g. split; [exact Hg|]. intros k. rewrite Hlook.
    by rewrite lookup_empty.
  - intros Hbad. apply groupBy_fold_throws; [|done].
    intros k [v Hk]. by rewrite lookup_empty in Hk.
Qed.
End GroupBy.

Lemma groupBy_groups_witness :
  (∃ g, Dashboard.groupBy r_stimulus twoCleanResults = Some g
        ∧ g !! "river"%string
          = Some [mkResult "river" LexWord (Some 40) (RespNum 1)
                    (RTSeconds 350000) 1]
        ∧ g !! "candle"%string = None)
  ∧ Dashboard.groupBy (λ _ : TrialResult, "constructor"%string)
      twoCleanResults = None.
Proof.
  destruct (groupBy_groups r_stimulus twoCleanResults) as [Hok _].
  destruct (groupBy_groups (λ _ : TrialResult, "constructor"%string)
              twoCleanResults) as [_ Hthrow].
  split.
  - destruct Hok as (g & Hg & Hlook).
    + intros x Hx. apply (bool_decide_unpack _).
      unfold twoCleanResults in Hx.
      repeat (apply elem_of_cons in Hx as [->|Hx]; [vm_compute; exact I|]).
      by apply elem_of_nil in Hx.
    + exists g. split; [exact Hg|]. split; rewrite Hlook; reflexivity.
  - apply Hthrow. eexists. split; [by left|].
    intros H. apply H. unfold Dashboard.objectPrototypeNames.
    by left.
Defined.

(** X17.  The comparator of the participant ranking is a consistent
    ordering: swapping its arguments flips the sign of the result, "not
    after" is transitive, a completed session always comes before one that
    is not, and among sessions of one status a higher accuracy comes first
    and a missing accuracy last. *)
Theorem rankCompare_consistent (a b c : Dashboard.Ranked) :
  (Dashboard.rankCompare b a == - Dashboard.rankCompare a b)%Q
  ∧ ((Dashboard.rankCompare a b <= 0)%Q → (Dashboard.rankCompare b c <= 0)%Q →
     (Dashboard.rankCompare a c <= 0)%Q)
  ∧ (Dashboard.rk_completed a = true → Dashboard.rk_completed b = false →
     (Dashboard.rankCompare a b < 0)%Q)
  ∧ (Dashboard.rk_completed a = Dashboard.rk_completed b →
     ∀ x y, Dashboard.rk_acc a = Some x → Dashboard.rk_acc b = Some y →
            ((Dashboard.rankCompare a b < 0)%Q ↔ (y < x)%Q))
  ∧ (Dashboard.rk_completed a = Dashboard.rk_completed b →
     Dashboard.rk_acc a = None → (0 <= Dashboard.rankCompare a b)%Q).
Proof.
  destruct a as [ca [x|]], b as [cb [y|]], c as [cc [z|]];
    destruct ca, cb, cc; unfold Dashboard.rankCompare; simpl;
    repeat split; intros; simplify_eq; try done; try lra.
Qed.

(* ===================================================================== *)
(** ** The durations and cells of the summary                              *)
(* ===================================================================== *)

Lemma elem_of_List_filter {A} (f : A → bool) (l : list A) x :
  x ∈ List.filter f l ↔ x ∈ l ∧ f x = true.
Proof. rewrite !list_elem_of_In. apply filter_In. Qed.

Lemma uniqueFirst_elem xs d : d ∈ uniqueFirst xs ↔ d ∈ xs.
Proof.
  induction xs as [|x xs IH]; simpl; [done|].
  rewrite !elem_of_cons, elem_of_List_filter, IH.
  destruct (decide (d = x)) as [->|Hne].
  - split; intros _; by left.
  - rewrite bool_decide_eq_false_2 by done. split.
    + intros [?|[? _]]; [done|by right].
    + intros [?|?]; [done|]. right. by split.
Qed.

Lemma NoDup_List_filter {A} (f : A → bool) (l : list A) :
  NoDup l → NoDup (List.filter f l).
Proof.
  induction 1 as [|x l Hx Hnd IH]; simpl; [constructor|].
  destruct (f x); [|done]. constructor; [|done].
  rewrite elem_of_List_filter. by intros [? _].
Qed.

Lemma uniqueFirst_NoDup xs : NoDup (uniqueFirst xs).
Proof.
  induction xs as [|x xs IH]; simpl; constructor.
  - rewrite elem_of_List_filter. intros [_ H].
    by rewrite bool_decide_eq_true_2 in H.
  - by apply NoDup_List_filter.
Qed.

Lemma insertDuration_Permutation d sorted :
  insertDuration d sorted ≡ₚ d :: sorted.
Proof.
  induction sorted as [|x rest IH]; simpl; [done|].
  destruct (durationLeb d x); [done|]. by rewrite IH, Permutation_swap.
Qed.

Lemma sortDurations_Permutation xs : sortDurations xs ≡ₚ xs.
Proof.
  induction xs as [|x xs IH]; simpl; [done|].
  by rewrite insertDuration_Permutation, IH.
Qed.

Lemma durationLeb_total a b : durationLeb a b = false → durationLeb b a = true.
Proof.
  destruct a as [x|], b as [y|]; simpl; try done.
  intros H. apply Z.leb_gt in H. apply Z.leb_le. lia.
Qed.

Lemma durationLeb_trans a b c :
  durationLeb a b = true → durationLeb b c = true → durationLeb a c = true.
Proof.
  destruct a as [x|], b as [y|], c as [z|]; simpl; try done.
  rewrite !Z.leb_le. lia.
Qed.

Lemma insertDuration_sorted d sorted :
  StronglySorted (λ a b, durationLeb a b = true) sorted →
  StronglySorted (λ a b, durationLeb a b = true) (insertDuration d sorted).
Proof.
  induction 1 as [|x rest Hrest IH Hx]; simpl.
  - repeat constructor.
  - destruct (durationLeb d x) eqn:Hdx.
    + constructor; [by constructor|]. constructor; [done|].
      eapply Forall_impl; [exact Hx|]. intros y Hy.
      by apply (durationLeb_trans d x y).
    + constructor; [exact IH|].
      rewrite insertDuration_Permutation. constructor; [|done].
      by apply durationLeb_total.
Qed.

Lemma sortDurations_sorted xs :
  StronglySorted (λ a b, durationLeb a b = true) (sortDurations xs).
Proof.
  induction xs as [|x xs IH]; simpl; [constructor|].
  by apply insertDuration_sorted.
Qed.

Lemma StronglySorted_lookup_lt {A} (R : relation A) (l : list A) :
  StronglySorted R l →
  ∀ i j x y, (i < j)%nat → l !! i = Some x → l !! j = Some y → R x y.
Proof.
  induction 1 as [|a l Hl IH Ha]; intros i j x y Hij Hi Hj; [done|].
  destruct j as [|j]; [lia|]. simpl in Hj. destruct i as [|i]; simpl in Hi.
  - injection Hi as <-. rewrite Forall_forall in Ha. apply Ha.
    by eapply list_elem_of_lookup_2.
  - apply (IH i j); [lia|done|done].
Qed.

Lemma entry_computed_elem {K V : Type} `{EqDecision K} (f : K → V)
    (keys : list K) (k : K) :
  entry k (map (λ x, (x, f x)) keys) = if decide (k ∈ keys) then Some (f k)
                                       else None.
Proof.
  induction keys as [|x keys IH]; simpl; [done|].
  destruct (decide (x = k)) as [->|Hne].
  - by rewrite decide_True by by left.
  - rewrite IH. destruct (decide (k ∈ keys)) as [Hin|Hout].
    + by rewrite decide_True by by right.
    + rewrite decide_False; [done|]. intros [->|?]%elem_of_cons; done.
Qed.

Lemma cellOf_elem results lex d :
  cellOf (computeSummary results) lex d
  = if decide (d ∈ sum_durations (computeSummary results))
    then Some (stats (List.filter (matchesCell lex d) results))
    else None.
Proof.
  unfold cellOf, computeSummary. simpl.
  destruct lex; simpl;
    apply (entry_computed_elem
             (λ d, stats (List.filter (matchesCell _ d) results))).
Qed.

Lemma sum_durations_elem results d :
  d ∈ sum_durations (computeSummary results)
  ↔ ∃ r, r ∈ results ∧ r_duration r = d.
Proof.
  simpl. rewrite sortDurations_Permutation, uniqueFirst_elem.
  rewrite list_elem_of_In, in_map_iff.
  split; intros (r & H1 & H2); exists r.
  - by rewrite list_elem_of_In.
  - by rewrite <- list_elem_of_In.
Qed.

Lemma sum_durations_NoDup results :
  NoDup (sum_durations (computeSummary results)).
Proof. simpl. rewrite sortDurations_Permutation. apply uniqueFirst_NoDup. Qed.

(** X18.  The durations the summary is laid out by are exactly the
    durations that occur in the results, each listed once, in ascending
    order (an absent duration last); and the summary has a cell for a
    lexicality and a duration exactly when the duration is one of them. *)
Theorem computeSummary_durations (results : list TrialResult) :
  let ds := sum_durations (computeSummary results) in
  NoDup ds
  ∧ (∀ d, d ∈ ds ↔ ∃ r, r ∈ results ∧ r_duration r = d)
  ∧ (∀ i j di dj, (i < j)%nat → ds !! i = Some di → ds !! j = Some dj →
                  durationLeb di dj = true ∧ di ≠ dj)
  ∧ (∀ lex d, is_Some (cellOf (computeSummary results) lex d) ↔ d ∈ ds).
Proof.
  intros ds.
  assert (Hnd : NoDup ds) by apply sum_durations_NoDup.
  split; [exact Hnd|]. split; [apply sum_durations_elem|]. split.
  - intros i j di dj Hij Hi Hj. split.
    + pose proof (sortDurations_sorted
                    (uniqueFirst (map r_duration results))) as Hs.
      by apply (StronglySorted_lookup_lt _ _ Hs i j di dj).
    + intros ->. pose proof (NoDup_lookup _ _ _ _ Hnd Hi Hj). lia.
  - intros lex d. rewrite cellOf_elem. fold ds.
    destruct (decide (d ∈ ds)) as [Hin|Hout].
    + split; [done|by eexists].
    + split; [by intros [? ?]|done].
Qed.

Lemma durationAt_defined ds i :
  (∀ d, d ∈ ds → d ≠ None) →
  durationAt ds i ∈ ds ↔ (i < length ds)%nat.
Proof.
  intros Hdef. unfold durationAt. destruct (ds !! i) as [d|] eqn:Hi; simpl.
  - split; intros _.
    + by eapply lookup_lt_Some.
    + by eapply list_elem_of_lookup_2.
  - apply lookup_ge_None in Hi. split; [|lia].
    intros Hin. by apply Hdef in Hin.
Qed.

(** X19.  On results that all have a duration, [populateSummary] fills the
    end screen exactly when the results hold at least two different
    durations.  With fewer (a dev-mode run whose ten trials share one
    duration, or no result at all) reading the second duration's cell
    throws. *)
Theorem populateSummary_needs_two_durations (results : list TrialResult) :
  durationsDefined results →
  (is_Some (populateSummary results)
   ↔ ∃ r1 r2, r1 ∈ results ∧ r2 ∈ results ∧ r_duration r1 ≠ r_duration r2)
  ∧ (results = [] → populateSummary results = None).
Proof.
  intros Hdef.
  pose proof (sum_durations_NoDup results) as Hnd.
  pose proof (sum_durations_elem results) as Helem.
  set (ds := sum_durations (computeSummary results)) in *.
  assert (Hsome : ∀ d, d ∈ ds → d ≠ None).
  { intros d Hd. apply Helem in Hd as (r & Hr & <-). by apply Hdef. }
  assert (Hiff : is_Some (populateSummary results) ↔ (2 ≤ length ds)%nat).
  { unfold populateSummary. fold ds. rewrite !cellOf_elem. fold ds.
    pose proof (durationAt_defined ds 0 Hsome) as H0.
    pose proof (durationAt_defined ds 1 Hsome) as H1.
    assert (Hb : ∀ d, entry d (byDur (computeSummary results))
                      = if decide (d ∈ ds)
                        then Some (stats (List.filter
                               (λ r, bool_decide (r_duration r = d)) results))
                        else None).
    { intros d. apply (entry_computed_elem
        (λ d, stats (List.filter (λ r, bool_decide (r_duration r = d))
                       results))). }
    rewrite !Hb.
    destruct (decide (durationAt ds 0 ∈ ds)) as [Hin0|Hout0];
      destruct (decide (durationAt ds 1 ∈ ds)) as [Hin1|Hout1]; simpl.
    - split; [intros _; apply H1; done|by eexists].
    - split; [by intros [? ?]|]. intros Hlen. exfalso. apply Hout1, H1. lia.
    - split; [by intros [? ?]|]. intros Hlen. exfalso. apply Hout0, H0. lia.
    - split; [by intros [? ?]|]. intros Hlen. exfalso. apply Hout1, H1. lia. }
  split.
  - rewrite Hiff. split.
    + intros Hlen.
      destruct (lookup_lt_is_Some_2 ds 0 ltac:(lia)) as [a Ha].
      destruct (lookup_lt_is_Some_2 ds 1 ltac:(lia)) as [b Hb].
      assert (Hab : a ≠ b).
      { intros ->. pose proof (NoDup_lookup _ _ _ _ Hnd Ha Hb). lia. }
      apply list_elem_of_lookup_2 in Ha, Hb.
      apply Helem in Ha as (r1 & Hr1 & <-). apply Helem in Hb as (r2 & Hr2 & <-).
      by exists r1, r2.
    + intros (r1 & r2 & Hr1 & Hr2 & Hne).
      assert (H1 : r_duration r1 ∈ ds) by (apply Helem; by exists r1).
      assert (H2 : r_duration r2 ∈ ds) by (apply Helem; by exists r2).
      apply list_elem_of_lookup_1 in H1 as [i Hi].
      apply list_elem_of_lookup_1 in H2 as [j Hj].
      assert (i ≠ j) by (intros ->; congruence).
      apply lookup_lt_Some in Hi, Hj. lia.
  - intros ->. reflexivity.
Qed.

Lemma populateSummary_needs_two_durations_witness :
  durationsDefined bothDurations ∧ is_Some (populateSummary bothDurations)
  ∧ populateSummary oneWordResult = None.
Proof.
  assert (Hdef : durationsDefined bothDurations).
  { intros r Hr. unfold bothDurations in Hr.
    repeat (apply elem_of_cons in Hr as [->|Hr]; [done|]).
    by apply elem_of_nil in Hr. }
  destruct (populateSummary_needs_two_durations bothDurations Hdef)
    as [Hiff _].
  split; [exact Hdef|]. split; [|reflexivity].
  apply Hiff. eexists _, _. split; [by left|]. split; [by right; left|].
  done.
Defined.

Lemma stats_n subset : n (stats subset) = length subset.
Proof. unfold stats. by destruct subset. Qed.

Lemma List_filter_length_split {A} (f : A → bool) (l : list A) :
  (length (List.filter f l) + length (List.filter (λ x, negb (f x)) l))%nat
  = length l.
Proof.
  induction l as [|x l IH]; simpl; [done|].
  destruct (f x); simpl; lia.
Qed.

(** Over keys listed once that cover the list, the sizes of the groups add
    up to the size of the list. *)
Lemma group_sizes_add_up {A K} `{EqDecision K} (key : A → K) (keys : list K)
    (l : list A) :
  NoDup keys → (∀ x, x ∈ l → key x ∈ keys) →
  sum_list (map (λ k, length (List.filter (λ x, bool_decide (key x = k)) l))
              keys)
  = length l.
Proof.
  intros Hnd. induction l as [|x l IH]; intros Hcover; simpl.
  - clear. by induction keys.
  - rewrite <- IH by (intros y Hy; apply Hcover; by right).
    assert (Hx : key x ∈ keys) by (apply Hcover; by left).
    clear IH Hcover. revert Hnd Hx.
    induction keys as [|k keys IHk]; intros Hnd Hx; simpl.
    + by apply elem_of_nil in Hx.
    + inversion Hnd as [|? ? Hk Hnd']; subst.
      destruct (decide (key x = k)) as [Heq|Hne].
      * rewrite bool_decide_eq_true_2 by done.
        rewrite (map_ext_in _
                   (λ k', length (List.filter
                                    (λ y, bool_decide (key y = k')) l))).
        { simpl. lia. }
        intros k' Hk'. apply list_elem_of_In in Hk'.
        rewrite bool_decide_eq_false_2; [done|]. congruence.
      * rewrite bool_decide_eq_false_2 by done.
        apply elem_of_cons in Hx as [Hx|Hx]; [done|].
        rewrite (IHk Hnd' Hx). lia.
Qed.

Lemma filter_cell_nested lex d results :
  List.filter (matchesCell lex d) results
  = List.filter (λ r, bool_decide (r_duration r = d))
      (List.filter (λ r, bool_decide (r_lexicality r = lex)) results).
Proof.
  induction results as [|r rs IH]; simpl; [done|]. unfold matchesCell at 1.
  destruct (bool_decide (r_lexicality r = lex)); simpl; [|exact IH].
  destruct (bool_decide (r_duration r = d)); by rewrite IH.
Qed.

(** X20.  The summary counts every result once: for each lexicality the
    sample sizes of its cells add up to the sample size of its marginal,
    which is the number of results of that lexicality; the two marginals by
    lexicality add up to the number of results, and so do the marginals by
    duration. *)
Theorem computeSummary_counts (results : list TrialResult) :
  let s := computeSummary results in
  (∀ lex,
     sum_list (map (λ d, from_option n 0%nat (cellOf s lex d))
                 (sum_durations s))
     = from_option n 0%nat (entry lex (byLex s))
     ∧ from_option n 0%nat (entry lex (byLex s))
       = length (List.filter (λ r, bool_decide (r_lexicality r = lex))
                   results))
  ∧ (from_option n 0 (entry LexWord (byLex s))
     + from_option n 0 (entry LexPseudoword (byLex s)))%nat = length results
  ∧ sum_list (map (λ d, from_option n 0%nat (entry d (byDur s)))
                (sum_durations s))
    = length results.
Proof.
  intros s.
  pose proof (sum_durations_NoDup results) as Hnd.
  pose proof (sum_durations_elem results) as Helem.
  fold s in Hnd, Helem.
  assert (Hlex : ∀ lex, from_option n 0%nat (entry lex (byLex s))
    = length (List.filter (λ r, bool_decide (r_lexicality r = lex)) results)).
  { intros lex. subst s. unfold computeSummary. simpl.
    destruct lex; simpl; apply stats_n. }
  split; [|split].
  - intros lex. split; [|apply Hlex]. rewrite Hlex.
    rewrite <- (group_sizes_add_up r_duration (sum_durations s)
                  (List.filter _ results) Hnd).
    + apply f_equal, map_ext_in. intros d Hd. apply list_elem_of_In in Hd.
      subst s. rewrite cellOf_elem, decide_True by done. simpl.
      by rewrite stats_n, filter_cell_nested.
    + intros r Hr. apply elem_of_List_filter in Hr as [Hr _].
      apply Helem. by exists r.
  - rewrite !Hlex.
    rewrite <- (List_filter_length_split
                  (λ r, bool_decide (r_lexicality r = LexWord)) results).
    f_equal. f_equal. apply filter_ext. intros r.
    by destruct (r_lexicality r).
  - rewrite <- (group_sizes_add_up r_duration (sum_durations s) results Hnd).
    + apply f_equal, map_ext_in. intros d Hd. apply list_elem_of_In in Hd.
      pose proof (entry_computed_elem
        (λ d, stats (List.filter (λ r, bool_decide (r_duration r = d))
                       results)) (sum_durations s) d) as He.
      change (entry d (byDur s)) with
        (entry d (map (λ x, (x, stats (List.filter
           (λ r, bool_decide (r_duration r = x)) results)))
           (sum_durations s))).
      rewrite He, decide_True by done. simpl. apply stats_n.
    + intros r Hr. apply Helem. by exists r.
Qed.

(* ===================================================================== *)
(** ** What the statistics can be                                          *)
(* ===================================================================== *)

Lemma sumAccuracy_bounds subset :
  binaryAccuracy subset →
  0 <= sumAccuracy subset <= Z.of_nat (length subset).
Proof.
  unfold sumAccuracy.
  assert (Hgen : ∀ l acc0, binaryAccuracy l →
    acc0 <= fold_left (λ s r, s + r_accuracy r) l acc0
         <= acc0 + Z.of_nat (length l)).
  { induction l as [|r l IH]; intros acc0 Hbin; simpl; [lia|].
    assert (Hr : r_accuracy r = 0 ∨ r_accuracy r = 1)
      by (apply Hbin; by left).
    specialize (IH (acc0 + r_accuracy r)
                  ltac:(intros y Hy; apply Hbin; by right)).
    lia. }
  intros Hbin. specialize (Hgen subset 0 Hbin). lia.
Qed.

(** Reaction times that are all present add up to a number. *)
Lemma sumRT_number correct :
  (∀ r, r ∈ correct → r_RT r ≠ RTEmpty) → ∃ q, sumRT correct = Num q.
Proof.
  unfold sumRT. generalize 0%Q as q0.
  induction correct as [|r l IH]; intros q0 Hall; simpl; [by eexists|].
  destruct (r_RT r) as [|m] eqn:Hr.
  - exfalso. by apply (Hall r); [left|].
  - simpl. apply IH. intros y Hy. apply Hall. by right.
Qed.

Lemma ratio_in_unit (s : Z) (len : nat) :
  0 <= s <= Z.of_nat len → (0 < len)%nat →
  (0 <= inject_Z s / inject_Z (Z.of_nat len))%Q
  ∧ (inject_Z s / inject_Z (Z.of_nat len) <= 1)%Q.
Proof.
  intros Hs Hlen.
  assert (Hpos : (0 < inject_Z (Z.of_nat len))%Q).
  { change 0%Q with (inject_Z 0). rewrite <- Zlt_Qlt. lia. }
  split.
  - apply Qle_shift_div_l; [done|]. rewrite Qmult_0_l.
    change 0%Q with (inject_Z 0). rewrite <- Zle_Qle. lia.
  - apply Qle_shift_div_r; [done|]. rewrite Qmult_1_l.
    rewrite <- Zle_Qle. lia.
Qed.

(** X21.  On results whose accuracy is 0 or 1, [stats] never yields [NaN]:
    the accuracy of a non-empty subset is a number between 0 and 1, and the
    mean reaction time is either [null], exactly when no trial of the subset
    is accurate with a reaction time recorded, or a number. *)
Theorem stats_are_numbers (subset : list TrialResult) :
  binaryAccuracy subset →
  (subset ≠ [] →
   ∃ a, acc (stats subset) = Some (Num a) ∧ (0 <= a)%Q ∧ (a <= 1)%Q)
  ∧ (rt (stats subset) = None
     ↔ ∀ r, r ∈ subset → ¬ (r_accuracy r = 1 ∧ r_RT r ≠ RTEmpty))
  ∧ (rt (stats subset) = None ∨ ∃ q, rt (stats subset) = Some (Num q)).
Proof.
  intros Hbin.
  set (correct := List.filter
         (λ r, bool_decide (r_accuracy r = 1)
               && negb (bool_decide (r_RT r = RTEmpty))) subset).
  assert (Hcorrect : ∀ r, r ∈ correct
            ↔ r ∈ subset ∧ r_accuracy r = 1 ∧ r_RT r ≠ RTEmpty).
  { intros r. subst correct. rewrite elem_of_List_filter, andb_true_iff.
    rewrite bool_decide_eq_true, negb_true_iff, bool_decide_eq_false. done. }
  assert (Hrt : rt (stats subset)
                = if (0 <? length correct)%nat
                  then Some (numDivLength (sumRT correct) (length correct))
                  else None).
  { unfold stats. destruct subset as [|r rs]; [done|]. done. }
  split; [|split].
  - intros Hne. destruct subset as [|r0 rs]; [done|].
    pose proof (sumAccuracy_bounds (r0 :: rs) Hbin) as Hb.
    destruct (ratio_in_unit (sumAccuracy (r0 :: rs)) (length (r0 :: rs)) Hb
                ltac:(simpl; lia)) as [H0 H1].
    eexists. split; [reflexivity|]. by split.
  - rewrite Hrt. destruct (Nat.ltb_spec 0 (length correct)) as [Hpos|Hzero].
    + split; [done|]. intros Hnone. exfalso.
      destruct correct as [|r rs] eqn:Hc; [simpl in Hpos; lia|].
      assert (Hr : r ∈ r :: rs) by by left.
      apply Hcorrect in Hr as (Hin & Hacc & Hrtr). by apply (Hnone r).
    + split; [|done]. intros _ r Hr [Hacc Hrtr].
      assert (r ∈ correct) by by apply Hcorrect.
      destruct correct; [by apply elem_of_nil in H|simpl in Hzero; lia].
  - rewrite Hrt. destruct (0 <? length correct)%nat; [|by left]. right.
    destruct (sumRT_number correct) as [q Hq].
    { intros r Hr. by apply Hcorrect in Hr as (_ & _ & ?). }
    rewrite Hq. simpl. by eexists.
Qed.

Lemma stats_are_numbers_witness :
  binaryAccuracy twoCleanResults
  ∧ ∃ a, acc (stats twoCleanResults) = Some (Num a)
         ∧ (0 <= a)%Q ∧ (a <= 1)%Q.
Proof.
  assert (Hbin : binaryAccuracy twoCleanResults).
  { intros r Hr. unfold twoCleanResults in Hr.
    apply elem_of_cons in Hr as [->|Hr]; [by right|].
    apply elem_of_cons in Hr as [->|Hr]; [by left|].
    by apply elem_of_nil in Hr. }
  split; [exact Hbin|].
  destruct (stats_are_numbers twoCleanResults Hbin) as (Hacc & _ & _).
  exact (Hacc ltac:(done)).
Defined.

(* ===================================================================== *)
(** ** The form parameters                                                 *)
(* ===================================================================== *)

Lemma parseIntOr_nonzero v dflt : dflt ≠ 0 → parseIntOr v dflt ≠ 0.
Proof.
  intros Hd. unfold parseIntOr. destruct v as [n|]; [|done].
  by destruct (Z.eqb_spec n 0).
Qed.

Lemma applyFormParameters_keeps_swap form cfg :
  keyWord cfg = "j"%string → keyNonword cfg = "f"%string →
  keyWord (applyFormParameters form cfg) = "j"%string
  ∧ keyNonword (applyFormParameters form cfg) = "f"%string.
Proof. intros Hw Hn. simpl. by destruct (param_swap form). Qed.

(** X22.  Applying a form never leaves a count or a duration at 0 (a typed
    0 or an unreadable entry gives the default), and applying the same form
    twice is the same as applying it once.  The key swap is one-way: after
    a form with the box ticked has been applied, the keys stay swapped under
    every later form, ticked or not. *)
Theorem applyFormParameters_facts (form : Form) (cfg : Config)
    (later : list Form) :
  let cfg' := applyFormParameters form cfg in
  (nReps cfg' ≠ 0 ∧ fixationDuration cfg' ≠ 0 ∧ maskDuration cfg' ≠ 0
   ∧ responseTimeout cfg' ≠ 0 ∧ feedbackDuration cfg' ≠ 0)
  ∧ applyFormParameters form cfg' = cfg'
  ∧ (param_swap form = true →
     let final := fold_left (λ c f, applyFormParameters f c) later cfg' in
     keyWord final = "j"%string ∧ keyNonword final = "f"%string).
Proof.
  intros cfg'. split; [|split].
  - subst cfg'. simpl. repeat split; by apply parseIntOr_nonzero.
  - subst cfg'. unfold applyFormParameters. simpl.
    by destruct (param_swap form).
  - intros Hswap.
    assert (Hstart : keyWord cfg' = "j"%string ∧ keyNonword cfg' = "f"%string).
    { subst cfg'. simpl. by rewrite Hswap. }
    clearbody cfg'. revert cfg' Hstart.
    induction later as [|f later IH]; intros c [Hw Hn]; simpl; [done|].
    apply IH. by apply applyFormParameters_keeps_swap.
Qed.

Lemma applyFormParameters_facts_witness :
  param_swap namelessForm = true ∧
  keyWord (fold_left (λ c f, applyFormParameters f c) [blankForm; blankForm]
             (applyFormParameters namelessForm CONFIG)) = "j"%string.
Proof.
  split; [reflexivity|].
  destruct (applyFormParameters_facts namelessForm CONFIG
              [blankForm; blankForm]) as (_ & _ & Hsticky).
  destruct (Hsticky eq_refl) as [Hw _]. exact Hw.
Defined.

(* ===================================================================== *)
(** ** Which trials the dashboard keeps                                    *)
(* ===================================================================== *)

Lemma isClean_micros t :
  Dashboard.isClean t = true
  ↔ ∃ m, r_RT t = RTSeconds m ∧ 200000 <= m <= 2000000.
Proof.
  unfold Dashboard.isClean. destruct (r_RT t) as [|m]; simpl.
  - split; [done|]. by intros (m & ? & _).
  - destruct (Qle_bool (2 # 10) (m # 1000000)) eqn:Hlo; simpl.
    + destruct (Qle_bool (m # 1000000) 2) eqn:Hhi; simpl.
      * apply Qle_bool_iff in Hlo, Hhi. unfold Qle in Hlo, Hhi. simpl in *.
        split; [|done]. intros _. exists m. split; [done|lia].
      * split; [done|]. intros (m' & [= <-] & Hm).
        assert (Qle_bool (m # 1000000) 2 = true); [|congruence].
        apply Qle_bool_iff. unfold Qle. simpl. lia.
    + split; [done|]. intros (m' & [= <-] & Hm).
      assert (Qle_bool (2 # 10) (m # 1000000) = true); [|congruence].
      apply Qle_bool_iff. unfold Qle. simpl. lia.
Qed.

Lemma toFixed6_window (q : Q) :
  (200 <= q)%Q → (q <= 2000)%Q → 200000 <= toFixed6 (q / 1000) <= 2000000.
Proof.
  intros Hlo Hhi. unfold toFixed6.
  assert (Hnn : Qle_bool 0 (q / 1000) = true).
  { apply Qle_bool_iff. unfold Qdiv. change (/ 1000)%Q with (1 # 1000)%Q.
    lra. }
  rewrite Hnn.
  assert (H1 : Qfloor (200000 + (1 # 2))%Q
               <= Qfloor (q / 1000 * 1000000 + (1 # 2))%Q).
  { apply Qfloor_resp_le. unfold Qdiv. change (/ 1000)%Q with (1 # 1000)%Q.
    lra. }
  assert (H2 : Qfloor (q / 1000 * 1000000 + (1 # 2))%Q
               <= Qfloor (2000000 + (1 # 2))%Q).
  { apply Qfloor_resp_le. unfold Qdiv. change (/ 1000)%Q with (1 # 1000)%Q.
    lra. }
  assert (E1 : Qfloor (200000 + (1 # 2))%Q = 200000) by reflexivity.
  assert (E2 : Qfloor (2000000 + (1 # 2))%Q = 2000000) by reflexivity.
  lia.
Qed.

(** X23.  The dashboard keeps a trial exactly when its [RT] field is a time
    from 0.200000 s to 2.000000 s.  So it never keeps a timed-out trial,
    whatever its other fields, and it keeps every trial that [runTrial]
    records for a response given 200 ms to 2000 ms into the window. *)
Theorem isClean_of_runTrial (cfg : Config) (trialInfo : TrialSpec) :
  (∀ t, Dashboard.isClean t = true
        ↔ ∃ m, r_RT t = RTSeconds m ∧ 200000 <= m <= 2000000)
  ∧ (∀ resp, resp_key resp = None →
             Dashboard.isClean (runTrial cfg trialInfo resp) = false)
  ∧ (∀ key q, (200 <= q)%Q → (q <= 2000)%Q →
       Dashboard.isClean
         (runTrial cfg trialInfo (mkResponse (Some key) (Some q))) = true).
Proof.
  split; [apply isClean_micros|]. split.
  - intros resp Hkey. unfold runTrial, Dashboard.isClean. by rewrite Hkey.
  - intros key q Hlo Hhi. apply isClean_micros. eexists. split.
    + reflexivity.
    + by apply toFixed6_window.
Qed.

Lemma isClean_of_runTrial_witness :
  Dashboard.isClean
    (runTrial CONFIG (mkTrial "river" LexWord (Some 40) (Some 0%nat))
       (mkResponse (Some "f"%string) (Some 350%Q))) = true.
Proof.
  apply (isClean_of_runTrial CONFIG
           (mkTrial "river" LexWord (Some 40) (Some 0%nat))).
  - done.
  - done.
Defined.

(* ===================================================================== *)
(** ** Short and long phases                                               *)
(* ===================================================================== *)

(** X24.  A phase asked to last no time at all ends on its first frame; a
    phase asked to last any positive time never ends on its first frame, so
    it spans at least two refreshes; and asking for less never ends a phase
    later: when the longer request resolves at refresh [i'], the shorter
    one resolves at a refresh [i ≤ i'].  The stamp of the first frame is a
    finite double, as every stamp of the display is. *)
Theorem showForDuration_short_and_long (d d' : float) (t0 : float)
    (later : list float) :
  (isFinite t0 = true → (d <=? 0)%float = true →
   showForDuration d (t0 :: later) = Some t0)
  ∧ ((0 <? d)%float = true →
     showForDuration d [t0] = None
     ∧ showForDuration d (t0 :: later) = frame d (Some t0) later)
  ∧ ((d <=? d')%float = true →
     ∀ i' t', firstRefreshReaching d' (t0 :: later) i' t' →
       ∃ i t, firstRefreshReaching d (t0 :: later) i t ∧ (i ≤ i')%nat).
Proof.
  split; [|split].
  - intros Hf Hd. unfold showForDuration. simpl.
    assert ((d <=? t0 - t0)%float = true) as ->; [|done].
    rewrite leb_spec in *. by rewrite sub_self, Hf.
  - intros Hd.
    assert (Hno : (d <=? t0 - t0)%float = false).
    { destruct (isFinite t0) eqn:Hf.
      - apply ltb_not_leb in Hd. rewrite leb_spec in *.
        by rewrite sub_self, Hf.
      - apply leb_nan. by rewrite sub_self, Hf. }
    unfold showForDuration. simpl. by rewrite Hno.
  - intros Hdd i' t' (s & H0 & Hi' & Hreach & _). simpl in H0.
    injection H0 as <-.
    assert (Hreach' : (d <=? t' - t0)%float = true)
      by (by apply (leb_trans d d')).
    destruct (frame_resolves d t0 (t0 :: later) i' t' Hi' Hreach')
      as [t Ht].
    apply frame_started in Ht as (i & Hi & Hd & Hfirst).
    exists i, t. split.
    + exists t0. done.
    + destruct (decide (i ≤ i')%nat) as [|Hgt]; [done|].
      pose proof (Hfirst i' t' ltac:(lia) Hi'). congruence.
Qed.

(** On the 60 Hz stamps a request of 0 ms ends on the first frame, at
    1000 ms, and a request of 40 ms is still pending after that frame. *)
Lemma showForDuration_short_and_long_witness :
  showForDuration 0 sixtyHertz = Some 0x1.f4p+9%float
  ∧ showForDuration 40 [0x1.f4p+9%float] = None.
Proof.
  destruct (showForDuration_short_and_long 0 0 0x1.f4p+9 (tail sixtyHertz))
    as (H0 & _).
  destruct (showForDuration_short_and_long 40 40 0x1.f4p+9 (tail sixtyHertz))
    as (_ & H40 & _).
  split; [apply H0; reflexivity|apply H40; reflexivity].
Defined.
